(** * Accelerated reader: the anchor engine and the playback loop

    A shallow embedding of [urp.js] (class [AnchorEngine]) and of the
    scheduling and analytics part of [main.js] (class [App]), with the
    properties of the pivot selection, of the delay computation and of the
    recorded session data.

    Conventions of the embedding:
    - a JS string is the list of its UTF-16 code units; [word[i]] is the
      one-unit string at [i], or [undefined] out of range;
    - indices and lengths are integers ([Z]: the engine uses [-1] as a
      sentinel); the other JS numbers (rates, delays) are exact rationals
      ([Q]): every rate the program reaches is a multiple of 1/2 and is
      exact in a double as well, while delays are rounded there;
    - mutable objects are passed explicitly: a method takes [this] and
      returns the updated object; [Date.now()] is an argument;
    - of the DOM the model keeps the visibility of the report and the text
      written to the display, the statistics and the heat map. *)

From Stdlib Require Import ZArith QArith Qround Lia Lqa.
From Stdlib Require Import List Bool Ascii String Sorted.
Import ListNotations.

Local Open Scope Z_scope.

(** ** The JavaScript values and built-ins the program uses *)

Module JS.

Section Values.
Variable char : Type.

(** The values a field such as [lastAnchorChar] may hold. *)
Inductive value : Type :=
| Null
| Undefined
| Str (s : list char).

(** [if (v)]: [null], [undefined] and the empty string are falsy. *)
Definition truthy (v : value) : bool :=
  match v with
  | Str (_ :: _) => true
  | _ => false
  end.

(** [word[i]] *)
Definition index (word : list char) (i : Z) : value :=
  if i <? 0 then Undefined
  else match nth_error word (Z.to_nat i) with
       | Some c => Str [c]
       | None => Undefined
       end.

(** [word.length] *)
Definition length (word : list char) : Z := Z.of_nat (List.length word).
End Values.

Arguments Null {char}.
Arguments Undefined {char}.
Arguments Str {char} s.
Arguments truthy {char} v.
Arguments index {char} word i.
Arguments length {char} word.

(** [Math.floor], [Math.ceil], [Math.round] (halves go up), [Math.min] and
    [Math.max] of two numbers. *)
Definition Math_floor (x : Q) : Z := Qfloor x.
Definition Math_ceil (x : Q) : Z := Qceiling x.
Definition Math_round (x : Q) : Z := Qfloor (x + (1 # 2))%Q.
Definition Math_min (x y : Q) : Q := if Qle_bool x y then x else y.
Definition Math_max (x y : Q) : Q := if Qle_bool x y then y else x.

End JS.

(** ** urp.js: the anchor engine *)

Module AnchorEngine.

Section Engine.
(** The engine does not depend on the alphabet: it is generic in the code
    unit and in [String.prototype.toLowerCase]. *)
Variable char : Type.
Variable char_eq_dec : forall a b : char, {a = b} + {a <> b}.
Variable toLowerCase : list char -> list char.

Record t : Type := { lastAnchorChar : JS.value char }.

Record PivotResult : Type :=
  { pivotIndex : Z; anchorChar : JS.value char }.

(** [constructor()] *)
Definition new : t := {| lastAnchorChar := JS.Null |}.

(** [reset()] *)
Definition reset (this : t) : t := {| lastAnchorChar := JS.Null |}.

(** [word[i].toLowerCase() === anchor.toLowerCase()] *)
Definition sameLetter (wi : char) (anchor : list char) : bool :=
  if list_eq_dec char_eq_dec (toLowerCase [wi]) (toLowerCase anchor)
  then true else false.

(** The loop [for (let i = 0; i < len; i++)] of Strategy 1, from index [i]
    on: [rest] is the part of the word not yet visited. *)
Fixpoint findMatches (anchor : list char) (i : Z) (rest : list char)
         (matches : list Z) : list Z :=
  match rest with
  | [] => matches
  | wi :: rest' =>
      findMatches anchor (i + 1) rest'
        (if sameLetter wi anchor then matches ++ [i] else matches)
  end.

(** The callback of [matches.reduce]. *)
Definition closer (idealCenter prev curr : Z) : Z :=
  if Z.abs (curr - idealCenter) <? Z.abs (prev - idealCenter)
  then curr else prev.

(** [process(word)] *)
Definition process (this : t) (word : list char) : PivotResult * t :=
  match word with
  | [] => ({| pivotIndex := 0; anchorChar := JS.Str [] |}, this)
  | _ :: _ =>
      let len := JS.length word in
      let pivotIndex := -1 in
      (* Strategy 1: Sticky Anchor *)
      let pivotIndex :=
        match lastAnchorChar this with
        | JS.Str (a :: s) =>
            let matches := findMatches (a :: s) 0 word [] in
            match matches with
            | m0 :: ms =>
                let idealCenter := JS.Math_floor (inject_Z len / 2)%Q in
                fold_left (closer idealCenter) ms m0
            | [] => pivotIndex
            end
        | _ => pivotIndex
        end in
      (* Strategy 2: Standard ORP (Fallback) *)
      let pivotIndex :=
        if pivotIndex =? -1 then
          let pivotIndex :=
            if len <=? 1 then 0
            else if (2 <=? len) && (len <=? 5) then 1
            else if (6 <=? len) && (len <=? 9) then 2
            else if (10 <=? len) && (len <=? 13) then 3
            else 4 in
          let pivotIndex := JS.Math_ceil (inject_Z len / 2)%Q - 1 in
          if pivotIndex <? 0 then 0 else pivotIndex
        else pivotIndex in
      let this := {| lastAnchorChar := JS.index word pivotIndex |} in
      ({| pivotIndex := pivotIndex; anchorChar := lastAnchorChar this |},
       this)
  end.

(** Position [i] of [word] holds the remembered character, up to case. *)
Definition matchesAt (anchor : list char) (word : list char) (i : Z)
  : Prop :=
  0 <= i /\
  exists wi, nth_error word (Z.to_nat i) = Some wi /\
             sameLetter wi anchor = true.

(** Distance of an index to the centre [floor(length / 2)]. *)
Definition distance (word : list char) (i : Z) : Z :=
  Z.abs (i - JS.Math_floor (inject_Z (JS.length word) / 2)%Q).

End Engine.

Arguments lastAnchorChar {char} _.
Arguments pivotIndex {char} _.
Arguments anchorChar {char} _.
Arguments new {char}.
Arguments reset {char} this.
Arguments sameLetter {char} char_eq_dec toLowerCase wi anchor.
Arguments findMatches {char} char_eq_dec toLowerCase anchor i rest matches.
Arguments process {char} char_eq_dec toLowerCase this word.
Arguments matchesAt {char} char_eq_dec toLowerCase anchor word i.
Arguments distance {char} word i.

End AnchorEngine.

(** ** main.js: the playback loop and the session analytics *)

(** One entry of [sessionData]. *)
Module Sample.
Record t : Type :=
  { words : list ascii; wpm : Z; timestamp : Z }.
End Sample.

(** A call either returns or throws; both leave the object as it was
    mutated up to that point. *)
Inductive completion (A : Type) : Type :=
| Normal (this : A)
| Throw (this : A).
Arguments Normal {A} this.
Arguments Throw {A} this.

Module App.

Definition jsString : Type := list ascii.

(** *** Strings: code units below 256 *)

(** [toLowerCase] on the Latin-1 range: A-Z and the accented capitals
    U+00C0-U+00DE (without the sign U+00D7) move up by 32. *)
Definition lowerUnit (c : ascii) : ascii :=
  let n := N_of_ascii c in
  if (((65 <=? n) && (n <=? 90)) ||
      ((192 <=? n) && (n <=? 222) && negb (n =? 215)))%N
  then ascii_of_N (n + 32) else c.

Definition toLowerCase (s : jsString) : jsString := map lowerUnit s.

(** White space of [trim()] and of the class [\s], on the same range. *)
Definition isWhiteSpace (c : ascii) : bool :=
  let n := N_of_ascii c in
  (((9 <=? n) && (n <=? 13)) || (n =? 32) || (n =? 160))%N.

Fixpoint trimStart (s : jsString) : jsString :=
  match s with
  | c :: s' => if isWhiteSpace c then trimStart s' else s
  | [] => []
  end.

Definition trim (s : jsString) : jsString :=
  rev (trimStart (rev (trimStart s))).

(** [s.split(/\s+/)]: [inSep] holds inside a run of white space, [cur] is
    the piece being read. *)
Fixpoint splitSpaces (inSep : bool) (cur : jsString) (s : jsString)
  : list jsString :=
  match s with
  | [] => [cur]
  | c :: s' =>
      if isWhiteSpace c then
        if inSep then splitSpaces true [] s'
        else cur :: splitSpaces true [] s'
      else splitSpaces false (cur ++ [c]) s'
  end.

(** [words.join(sep)] *)
Fixpoint join (sep : jsString) (ws : list jsString) : jsString :=
  match ws with
  | [] => []
  | [w] => w
  | w :: ws' => w ++ sep ++ join sep ws'
  end.

(** [w.endsWith(c)] for a one-unit [c]. *)
Definition endsWith (w : jsString) (c : ascii) : bool :=
  match rev w with
  | c' :: _ => Ascii.eqb c' c
  | [] => false
  end.

(** [a.slice(start, end)] *)
Definition slice {A : Type} (a : list A) (start end_ : Z) : list A :=
  let len := Z.of_nat (List.length a) in
  let k := if start <? 0 then Z.max (len + start) 0 else Z.min start len in
  let final := if end_ <? 0 then Z.max (len + end_) 0 else Z.min end_ len in
  firstn (Z.to_nat (final - k)) (skipn (Z.to_nat k) a).

(** [a[a.length - 1]], [None] for [undefined]. *)
Definition lastElement {A : Type} (a : list A) : option A :=
  nth_error a (List.length a - 1).

(** [Math.max(...xs)] and [Math.min(...xs)]; [None] stands for the infinity
    they return on no argument. *)
Definition Math_max_spread (xs : list Z) : option Z :=
  match xs with
  | [] => None
  | x :: xs' => Some (fold_left Z.max xs' x)
  end.

Definition Math_min_spread (xs : list Z) : option Z :=
  match xs with
  | [] => None
  | x :: xs' => Some (fold_left Z.min xs' x)
  end.

(** *** The object *)

Record t : Type :=
  { textInput : jsString;          (* textInput.value *)
    reportHidden : bool;           (* reportModal carries class 'hidden' *)
    engine : AnchorEngine.t ascii;
    words : list jsString;
    currentIndex : Z;
    isPlaying : bool;
    wpm : Q;
    chunkSize : Z;
    timer : option Q;              (* the pending timeout and its delay *)
    sessionData : list Sample.t;
    sessionStartTime : Z }.

Definition set_textInput (v : jsString) (a : t) : t :=
  {| textInput := v; reportHidden := reportHidden a; engine := engine a;
     words := words a; currentIndex := currentIndex a;
     isPlaying := isPlaying a; wpm := wpm a; chunkSize := chunkSize a;
     timer := timer a; sessionData := sessionData a;
     sessionStartTime := sessionStartTime a |}.

Definition set_reportHidden (v : bool) (a : t) : t :=
  {| textInput := textInput a; reportHidden := v; engine := engine a;
     words := words a; currentIndex := currentIndex a;
     isPlaying := isPlaying a; wpm := wpm a; chunkSize := chunkSize a;
     timer := timer a; sessionData := sessionData a;
     sessionStartTime := sessionStartTime a |}.

Definition set_engine (v : AnchorEngine.t ascii) (a : t) : t :=
  {| textInput := textInput a; reportHidden := reportHidden a; engine := v;
     words := words a; currentIndex := currentIndex a;
     isPlaying := isPlaying a; wpm := wpm a; chunkSize := chunkSize a;
     timer := timer a; sessionData := sessionData a;
     sessionStartTime := sessionStartTime a |}.

Definition set_words (v : list jsString) (a : t) : t :=
  {| textInput := textInput a; reportHidden := reportHidden a;
     engine := engine a; words := v; currentIndex := currentIndex a;
     isPlaying := isPlaying a; wpm := wpm a; chunkSize := chunkSize a;
     timer := timer a; sessionData := sessionData a;
     sessionStartTime := sessionStartTime a |}.

Definition set_currentIndex (v : Z) (a : t) : t :=
  {| textInput := textInput a; reportHidden := reportHidden a;
     engine := engine a; words := words a; currentIndex := v;
     isPlaying := isPlaying a; wpm := wpm a; chunkSize := chunkSize a;
     timer := timer a; sessionData := sessionData a;
     sessionStartTime := sessionStartTime a |}.

Definition set_isPlaying (v : bool) (a : t) : t :=
  {| textInput := textInput a; reportHidden := reportHidden a;
     engine := engine a; words := words a; currentIndex := currentIndex a;
     isPlaying := v; wpm := wpm a; chunkSize := chunkSize a;
     timer := timer a; sessionData := sessionData a;
     sessionStartTime := sessionStartTime a |}.

Definition set_wpm (v : Q) (a : t) : t :=
  {| textInput := textInput a; reportHidden := reportHidden a;
     engine := engine a; words := words a; currentIndex := currentIndex a;
     isPlaying := isPlaying a; wpm := v; chunkSize := chunkSize a;
     timer := timer a; sessionData := sessionData a;
     sessionStartTime := sessionStartTime a |}.

Definition set_chunkSize (v : Z) (a : t) : t :=
  {| textInput := textInput a; reportHidden := reportHidden a;
     engine := engine a; words := words a; currentIndex := currentIndex a;
     isPlaying := isPlaying a; wpm := wpm a; chunkSize := v;
     timer := timer a; sessionData := sessionData a;
     sessionStartTime := sessionStartTime a |}.

Definition set_timer (v : option Q) (a : t) : t :=
  {| textInput := textInput a; reportHidden := reportHidden a;
     engine := engine a; words := words a; currentIndex := currentIndex a;
     isPlaying := isPlaying a; wpm := wpm a; chunkSize := chunkSize a;
     timer := v; sessionData := sessionData a;
     sessionStartTime := sessionStartTime a |}.

Definition set_sessionData (v : list Sample.t) (a : t) : t :=
  {| textInput := textInput a; reportHidden := reportHidden a;
     engine := engine a; words := words a; currentIndex := currentIndex a;
     isPlaying := isPlaying a; wpm := wpm a; chunkSize := chunkSize a;
     timer := timer a; sessionData := v;
     sessionStartTime := sessionStartTime a |}.

Definition set_sessionStartTime (v : Z) (a : t) : t :=
  {| textInput := textInput a; reportHidden := reportHidden a;
     engine := engine a; words := words a; currentIndex := currentIndex a;
     isPlaying := isPlaying a; wpm := wpm a; chunkSize := chunkSize a;
     timer := timer a; sessionData := sessionData a;
     sessionStartTime := v |}.

(** *** Methods *)

Definition spaceString : jsString := [" "%char].

(** [constructor()], over the initial content of the page. *)
Definition new (text : jsString) (hidden : bool) : t :=
  {| textInput := text; reportHidden := hidden;
     engine := AnchorEngine.new;
     words := []; currentIndex := 0; isPlaying := false;
     wpm := 300%Q; chunkSize := 1; timer := None;
     sessionData := []; sessionStartTime := 0 |}.

(** [parseText()] *)
Definition parseText (this : t) : list jsString :=
  let rawText := trim (textInput this) in
  match rawText with
  | [] => []
  | _ :: _ =>
      filter (fun w => 0 <? JS.length w) (splitSpaces false [] rawText)
  end.

(** [stop()]: [clearTimeout] drops the pending timeout. *)
Definition stop (this : t) : t :=
  let this := set_isPlaying false this in
  set_timer None this.

(** [renderChunk(words)]: the call of the engine. *)
Definition renderChunk (chunk : list jsString) (this : t) : t :=
  let fullString := join spaceString chunk in
  let '(_, e) :=
    AnchorEngine.process ascii_dec toLowerCase (engine this) fullString in
  set_engine e this.

(** The divisor [maxWpm - minWpm || 1] of [renderHeatmap]: the difference,
    or [1] when the difference is 0. *)
Definition divisor (maxWpm minWpm : Z) : Z :=
  let d := maxWpm - minWpm in
  if d =? 0 then 1 else d.

(** The local [normalized] of [renderHeatmap]. *)
Definition normalized (maxWpm minWpm : Z) (item : Sample.t) : Q :=
  (inject_Z (Sample.wpm item - minWpm)
   / inject_Z (divisor maxWpm minWpm))%Q.

Record Span : Type := { textContent : jsString; hue : Q }.

(** [renderHeatmap()]: the spans appended to the heat map. *)
Definition renderHeatmap (this : t) : list Span :=
  let rates := map Sample.wpm (sessionData this) in
  match Math_max_spread rates, Math_min_spread rates with
  | Some maxWpm, Some minWpm =>
      map (fun item =>
             {| textContent := Sample.words item ++ spaceString;
                hue := (200 - normalized maxWpm minWpm item * 200)%Q |})
          (sessionData this)
  | _, _ => []
  end.

(** [showReport()] *)
Definition showReport (this : t) : t := set_reportHidden false this.

(** [runLoop()]; [now] is the value of [Date.now()]. *)
Definition runLoop (now : Z) (this : t) : completion t :=
  if negb (isPlaying this) then Normal this
  else if currentIndex this >=? JS.length (words this) then
    Normal (showReport (stop this))
  else
    let chunk :=
      slice (words this) (currentIndex this)
            (currentIndex this + chunkSize this) in
    let this := set_currentIndex (currentIndex this + chunkSize this) this in
    let this := renderChunk chunk this in
    (* Adaptive Speed Logic *)
    let accelerationRate : Q := 0.5%Q in
    let this :=
      set_wpm (JS.Math_min 1200
                 (wpm this + accelerationRate * inject_Z (JS.length chunk))%Q)
              this in
    (* Track Analytics *)
    let this :=
      set_sessionData
        (sessionData this ++
           [{| Sample.words := join spaceString chunk;
               Sample.wpm := JS.Math_round (wpm this);
               Sample.timestamp := now - sessionStartTime this |}])
        this in
    let msPerWord : Q := (60000 / wpm this)%Q in
    let delay : Q := (msPerWord * inject_Z (JS.length chunk))%Q in
    match lastElement chunk with
    | None => Throw this          (* undefined.endsWith: TypeError *)
    | Some lastWord =>
        let extraDelay : Q :=
          if endsWith lastWord "." || endsWith lastWord "!"
             || endsWith lastWord "?"
          then (msPerWord * 1.5)%Q
          else if endsWith lastWord "," || endsWith lastWord ";"
          then (msPerWord * 0.5)%Q
          else 0%Q in
        Normal (set_timer (Some (delay + extraDelay)%Q) this)
    end.

(** [start()]; [t0] and [t1] are the two readings of the clock, in [start]
    and in [runLoop]. *)
Definition start (t0 t1 : Z) (this : t) : completion t :=
  let this := set_isPlaying true this in
  let this := set_sessionStartTime t0 this in
  runLoop t1 this.

(** [togglePlay()] *)
Definition togglePlay (t0 t1 : Z) (this : t) : completion t :=
  if isPlaying this then Normal (stop this)
  else
    let this :=
      if (0 <? JS.length (words this))
         && (currentIndex this >=? JS.length (words this))
      then set_sessionData []
             (set_engine (AnchorEngine.reset (engine this))
                (set_currentIndex 0 this))
      else this in
    if (JS.length (words this) =? 0) || (currentIndex this =? 0) then
      let this := set_words (parseText this) this in
      if JS.length (words this) =? 0 then Normal this
      else start t0 t1 (set_sessionData [] this)
    else start t0 t1 this.

(** *** Event handlers registered by [init()] *)

(** [input] on the rate slider; [value] is [parseInt(e.target.value)]. *)
Definition wpmSliderInput (value : Z) (t0 t1 : Z) (this : t)
  : completion t :=
  let this := set_wpm (inject_Z value) this in
  if isPlaying this then start t0 t1 (stop this) else Normal this.

(** [input] on the chunk slider. *)
Definition chunkSliderInput (value : Z) (this : t) : t :=
  set_chunkSize value this.

(** [input] on the text area, whose content is now [text]. *)
Definition textInputInput (text : jsString) (this : t) : t :=
  let this := set_textInput text this in
  if negb (isPlaying this) then
    set_engine (AnchorEngine.reset (engine this)) (set_currentIndex 0 this)
  else this.

Inductive key : Type := Space | ArrowRight | ArrowLeft | OtherKey.

(** [keydown]; [inText] holds when the text area has the focus. *)
Definition keydown (inText : bool) (code : key) (t0 t1 : Z) (this : t)
  : completion t :=
  if inText then Normal this
  else match code with
       | Space => togglePlay t0 t1 this
       | ArrowRight =>
           Normal (set_wpm (JS.Math_min 1000 (wpm this + 50))%Q this)
       | ArrowLeft =>
           Normal (set_wpm (JS.Math_max 60 (wpm this - 50))%Q this)
       | OtherKey => Normal this
       end.

(** The callback of [setTimeout]: the pending timeout is consumed. *)
Definition timerFires (now : Z) (this : t) : completion t :=
  match timer this with
  | Some _ => runLoop now (set_timer None this)
  | None => Normal this
  end.

(** An uninterrupted run: the timeouts fire one after the other, no other
    event in between, until none is pending; [clock k] is the clock at the
    [k]-th of them. [None]: more than [fuel] timeouts. *)
Fixpoint fireTimers (fuel : nat) (clock : nat -> Z) (this : t)
  : option (completion t) :=
  match timer this with
  | None => Some (Normal this)
  | Some _ =>
      match fuel with
      | O => None
      | S fuel' =>
          match timerFires (clock O) this with
          | Normal this' => fireTimers fuel' (fun k => clock (S k)) this'
          | Throw this' => Some (Throw this')
          end
      end
  end.

(** *** The delay as the specification words it *)

(** The pause after the last word: 1.5 words after [.], [!] or [?], half a
    word after [,] or [;], none otherwise. *)
Definition pauseWords (lastWord : jsString) : Q :=
  if endsWith lastWord "." || endsWith lastWord "!" || endsWith lastWord "?"
  then 1.5%Q
  else if endsWith lastWord "," || endsWith lastWord ";" then 0.5%Q
  else 0%Q.

(** [(60000 / r) * chunkLength + (60000 / r) * pause]. *)
Definition specDelay (r : Q) (chunkLength : Z) (lastWord : jsString) : Q :=
  ((60000 / r) * inject_Z chunkLength + (60000 / r) * pauseWords lastWord)%Q.

(** *** The recorded rates *)

Definition sessionRates (this : t) : list Z :=
  map Sample.wpm (sessionData this).

(** What a run maintains: the recorded rates never decrease, none exceeds
    1200, and none exceeds the rounded current rate. *)
Definition ratesOk (this : t) : Prop :=
  StronglySorted Z.le (sessionRates this) /\
  Forall (fun r => r <= 1200 /\ r <= JS.Math_round (wpm this))
         (sessionRates this).

(** *** The display of a chunk *)

(** The no-break space U+00A0. *)
Definition nbsp : ascii := ascii_of_N 160.

(** [s.replace(/ /g, '\u00A0')] *)
Definition replaceSpaces (s : jsString) : jsString :=
  map (fun c => if Ascii.eqb c " " then nbsp else c) s.

(** The text of the three cells [renderChunk] puts in [wordDisplay]. *)
Record Display : Type :=
  { leftText : jsString; pivotText : JS.value ascii; rightText : jsString }.

(** [renderChunk(words)]: what is written to the page. *)
Definition renderChunkDisplay (chunk : list jsString) (this : t) : Display :=
  let fullString := join spaceString chunk in
  let '(r, _) :=
    AnchorEngine.process ascii_dec toLowerCase (engine this) fullString in
  let pivotIndex := AnchorEngine.pivotIndex r in
  {| leftText := replaceSpaces (slice fullString 0 pivotIndex);
     pivotText := JS.index fullString pivotIndex;
     rightText :=
       replaceSpaces
         (slice fullString (pivotIndex + 1) (JS.length fullString)) |}.

(** *** The statistics of the report *)

(** [avgWpm] and [peakWpm] of [renderStats()]; [None] when it returns on an
    empty session. The third figure, [totalTime], is the [toFixed(1)] of a
    double and is not part of the model. *)
Record Stats : Type := { avgWpm : Z; peakWpm : Z }.

Definition renderStats (this : t) : option Stats :=
  if JS.length (sessionData this) =? 0 then None
  else
    let totalWpm :=
      fold_left (fun acc curr => acc + Sample.wpm curr) (sessionData this) 0
    in
    let avgWpm :=
      JS.Math_round
        (inject_Z totalWpm / inject_Z (JS.length (sessionData this)))%Q in
    match Math_max_spread (map Sample.wpm (sessionData this)) with
    | Some peakWpm => Some {| avgWpm := avgWpm; peakWpm := peakWpm |}
    | None => None
    end.

(** *** The events of the page *)

(** [click] on the close button of the report. *)
Definition closeReportClick (this : t) : t := set_reportHidden true this.

(** The events [init()] listens to that touch the object, with the values
    they read from the page and from the clock, and the timeout. *)
Inductive event : Type :=
| PlayPauseClick (t0 t1 : Z)
| WpmSliderInput (value t0 t1 : Z)
| ChunkSliderInput (value : Z)
| TextInputInput (text : jsString)
| Keydown (inText : bool) (code : key) (t0 t1 : Z)
| CloseReportClick
| Timeout (now : Z).

Definition dispatch (e : event) (this : t) : completion t :=
  match e with
  | PlayPauseClick t0 t1 => togglePlay t0 t1 this
  | WpmSliderInput value t0 t1 => wpmSliderInput value t0 t1 this
  | ChunkSliderInput value => Normal (chunkSliderInput value this)
  | TextInputInput text => Normal (textInputInput text this)
  | Keydown inText code t0 t1 => keydown inText code t0 t1 this
  | CloseReportClick => Normal (closeReportClick this)
  | Timeout now => timerFires now this
  end.

(** The object a call leaves behind, returned or thrown. *)
Definition outcome (c : completion t) : t :=
  match c with
  | Normal this' | Throw this' => this'
  end.

(** The objects the page can be in: the new one, and what any event leaves
    behind. *)
Inductive reachable : t -> Prop :=
| reachable_new (text : jsString) (hidden : bool) :
    reachable (new text hidden)
| reachable_event (e : event) (this : t) :
    reachable this -> reachable (outcome (dispatch e this)).

(** A word as [parseText] gives them: no white space in it. *)
Definition noWhiteSpace (w : jsString) : Prop :=
  Forall (fun c => isWhiteSpace c = false) w.

(** A run of white space. *)
Definition blank (s : jsString) : Prop :=
  Forall (fun c => isWhiteSpace c = true) s.

(** The samples of a run that shows [k] words at a time: the [i]-th one
    holds the words from index [k * i] on. *)
Definition samplesFollow (k : Z) (ws : list jsString)
           (data : list Sample.t) : Prop :=
  forall (i : nat) (sample : Sample.t),
    nth_error data i = Some sample ->
    Sample.words sample =
    join spaceString (slice ws (k * Z.of_nat i) (k * Z.of_nat i + k)).

(** The object after the bookkeeping of a tick at the clock [now]: the
    position moved on, the engine asked, the rate raised and the sample
    pushed; the timeout is not scheduled yet. *)
Definition ticked (now : Z) (this : t) : t :=
  let chunk :=
    slice (words this) (currentIndex this)
          (currentIndex this + chunkSize this) in
  let rate :=
    JS.Math_min 1200 (wpm this + 0.5 * inject_Z (JS.length chunk))%Q in
  set_sessionData
    (sessionData this ++
       [{| Sample.words := join spaceString chunk;
           Sample.wpm := JS.Math_round rate;
           Sample.timestamp := now - sessionStartTime this |}])
    (set_wpm rate
       (set_engine
          (snd (AnchorEngine.process ascii_dec toLowerCase (engine this)
                  (join spaceString chunk)))
          (set_currentIndex (currentIndex this + chunkSize this) this))).

(** The remembered anchor is [null] or one character. *)
Definition anchorOk (e : AnchorEngine.t ascii) : Prop :=
  AnchorEngine.lastAnchorChar e = JS.Null \/
  exists c, AnchorEngine.lastAnchorChar e = JS.Str [c].

(** What every event keeps: no timeout is pending while paused, the
    remembered anchor is [null] or one character, no recorded rate
    exceeds 1200. *)
Definition invariant (this : t) : Prop :=
  (isPlaying this = false -> timer this = None) /\
  anchorOk (engine this) /\
  Forall (fun r => r <= 1200) (sessionRates this).

End App.

(** ** Sample inputs *)

Module Demo.
Import App.

Definition str (s : string) : jsString := list_ascii_of_string s.

(** Playing, about to show the single word [end.], the rate half a word
    below 300. *)
Definition beforeEnd : t :=
  {| textInput := str "end."; reportHidden := true;
     engine := AnchorEngine.new;
     words := [str "end."]; currentIndex := 0; isPlaying := true;
     wpm := 299.5%Q; chunkSize := 1; timer := None;
     sessionData := []; sessionStartTime := 1000 |}.

(** The same at the initial rate 300. *)
Definition beforeEnd300 : t := set_wpm 300%Q beforeEnd.

(** Playing since the clock read 1000: the first of three words is on
    display, its sample is recorded and its timeout is pending. *)
Definition midSession : t :=
  {| textInput := str "a b c"; reportHidden := true;
     engine := {| AnchorEngine.lastAnchorChar := JS.Str (str "a") |};
     words := [str "a"; str "b"; str "c"];
     currentIndex := 1; isPlaying := true;
     wpm := 300.5%Q; chunkSize := 1;
     timer := Some (60000 / 300.5)%Q;
     sessionData :=
       [{| Sample.words := str "a"; Sample.wpm := 301;
           Sample.timestamp := 0 |}];
     sessionStartTime := 1000 |}.

(** An engine that remembers a capital [A]. *)
Definition anchorA : AnchorEngine.t ascii :=
  {| AnchorEngine.lastAnchorChar := JS.Str (str "A") |}.

(** A session of three samples at two different rates. *)
Definition threeSamples : list Sample.t :=
  [{| Sample.words := str "The"; Sample.wpm := 301; Sample.timestamp := 1 |};
   {| Sample.words := str "quick"; Sample.wpm := 301;
      Sample.timestamp := 200 |};
   {| Sample.words := str "fox."; Sample.wpm := 302;
      Sample.timestamp := 401 |}].

(** Idle on a fresh page with a text of three words. *)
Definition fresh : t := App.new (str "  The quick  fox. ") true.

(** The same page once the session is over. *)
Definition finished : t :=
  set_sessionData threeSamples
    (set_currentIndex 3
       (set_words [str "The"; str "quick"; str "fox."] fresh)).

(** The clock of the timeouts of a run. *)
Definition clock (k : nat) : Z := 1200 + 200 * Z.of_nat k.

(** The fresh page after a click on play at the clock 1000: the first word
    is on display and its timeout is pending. *)
Definition played : t := outcome (dispatch (PlayPauseClick 1000 1001) fresh).

(** The same after a second click at the clock 1100, before the timeout
    has fired: paused on the first word. *)
Definition paused : t := outcome (dispatch (PlayPauseClick 1100 1101) played).

End Demo.

(** * Properties *)

(** ** Numbers *)

Module JSFacts.

Lemma Math_floor_half (n : Z) : JS.Math_floor (inject_Z n / 2)%Q = n / 2.
Proof.
  unfold JS.Math_floor, Qdiv, Qmult, Qinv, inject_Z, Qfloor; simpl.
  now rewrite Z.mul_1_r.
Qed.

Lemma Math_ceil_half (n : Z) :
  JS.Math_ceil (inject_Z n / 2)%Q = (n + 1) / 2.
Proof.
  unfold JS.Math_ceil, Qceiling, Qdiv, Qmult, Qinv, inject_Z, Qopp, Qfloor.
  simpl. rewrite Z.mul_1_r.
  pose proof (Z.div_mod (- n) 2 ltac:(lia)).
  pose proof (Z.mod_pos_bound (- n) 2 ltac:(lia)).
  pose proof (Z.div_mod (n + 1) 2 ltac:(lia)).
  pose proof (Z.mod_pos_bound (n + 1) 2 ltac:(lia)).
  lia.
Qed.

Lemma Math_round_le (x y : Q) :
  (x <= y)%Q -> JS.Math_round x <= JS.Math_round y.
Proof.
  intros H. unfold JS.Math_round. apply Qfloor_resp_le. lra.
Qed.

Lemma Math_min_le_l (x y : Q) : (JS.Math_min x y <= x)%Q.
Proof.
  unfold JS.Math_min. destruct (Qle_bool x y) eqn:E; [lra|].
  destruct (Qlt_le_dec y x) as [L|L]; [lra|].
  apply Qle_bool_iff in L. congruence.
Qed.

Lemma length_nonneg {char : Type} (w : list char) : 0 <= JS.length w.
Proof. unfold JS.length; lia. Qed.

Lemma length_cons {char : Type} (c : char) (w : list char) :
  JS.length (c :: w) = JS.length w + 1.
Proof. unfold JS.length; simpl List.length; lia. Qed.

End JSFacts.

(** ** The anchor engine *)

Module AnchorEngineFacts.
Import AnchorEngine.

Section Engine.
Variable char : Type.
Variable char_eq_dec : forall a b : char, {a = b} + {a <> b}.
Variable toLowerCase : list char -> list char.

Local Abbreviation sameLetter := (sameLetter char_eq_dec toLowerCase).
Local Abbreviation findMatches := (findMatches char_eq_dec toLowerCase).
Local Abbreviation process := (process char_eq_dec toLowerCase).
Local Abbreviation matchesAt := (matchesAt char_eq_dec toLowerCase).

(** *** The scan for matches *)

Lemma findMatches_acc (anchor rest : list char) :
  forall i acc,
    findMatches anchor i rest acc = acc ++ findMatches anchor i rest [].
Proof.
  induction rest as [|wi rest IH]; intros i acc; simpl.
  - now rewrite app_nil_r.
  - rewrite IH. destruct (sameLetter wi anchor).
    + rewrite (IH _ [i]). now rewrite app_assoc.
    + reflexivity.
Qed.

Lemma findMatches_cons (anchor rest : list char) (wi : char) (i : Z) :
  findMatches anchor i (wi :: rest) [] =
  (if sameLetter wi anchor then [i] else [])
    ++ findMatches anchor (i + 1) rest [].
Proof.
  simpl. rewrite findMatches_acc. now destruct (sameLetter wi anchor).
Qed.

Lemma findMatches_In (anchor rest : list char) :
  forall i j,
    In j (findMatches anchor i rest []) <->
    i <= j /\ exists wi, nth_error rest (Z.to_nat (j - i)) = Some wi /\
                         sameLetter wi anchor = true.
Proof.
  induction rest as [|w rest IH]; intros i j.
  - simpl. split; [tauto|]. intros [_ [wi [H _]]].
    now destruct (Z.to_nat (j - i)).
  - rewrite findMatches_cons, in_app_iff, IH.
    destruct (Z.eq_dec j i) as [->|Hne].
    + replace (i - i) with 0 by lia. simpl. split.
      * intros [H|[H _]]; [|lia].
        destruct (sameLetter w anchor) eqn:E; [|contradiction].
        split; [lia|]. now exists w.
      * intros [_ [wi [[= <-] E]]]. rewrite E. left. now left.
    + split.
      * intros [H|[H [wi [Hn E]]]].
        { destruct (sameLetter w anchor); simpl in H; intuition lia. }
        split; [lia|]. exists wi. split; [|assumption].
        replace (Z.to_nat (j - i)) with (S (Z.to_nat (j - (i + 1))))
          by lia.
        exact Hn.
      * intros [H [wi [Hn E]]]. right. split; [lia|].
        exists wi. split; [|assumption].
        replace (Z.to_nat (j - i)) with (S (Z.to_nat (j - (i + 1))))
          in Hn by lia.
        exact Hn.
Qed.

Lemma findMatches_sorted (anchor rest : list char) :
  forall i, StronglySorted Z.lt (findMatches anchor i rest []).
Proof.
  induction rest as [|w rest IH]; intros i.
  - constructor.
  - rewrite findMatches_cons.
    destruct (sameLetter w anchor); simpl; [|apply IH].
    constructor; [apply IH|].
    apply Forall_forall. intros j Hj.
    apply findMatches_In in Hj. lia.
Qed.

Lemma findMatches_matchesAt (anchor word : list char) (j : Z) :
  In j (findMatches anchor 0 word []) <-> matchesAt anchor word j.
Proof.
  rewrite findMatches_In. unfold AnchorEngine.matchesAt.
  now rewrite Z.sub_0_r.
Qed.

(** *** The reduction to the closest match *)

Lemma fold_closer (c : Z) (ms : list Z) :
  forall prev r,
    Forall (Z.lt prev) ms -> StronglySorted Z.lt ms ->
    r = fold_left (closer c) ms prev ->
    (r = prev \/ In r ms) /\
    Z.abs (r - c) <= Z.abs (prev - c) /\
    (forall x, In x ms -> Z.abs (r - c) <= Z.abs (x - c)) /\
    (Z.abs (r - c) = Z.abs (prev - c) -> r = prev) /\
    (forall x, In x ms -> Z.abs (x - c) = Z.abs (r - c) -> r <= x).
Proof.
  induction ms as [|m ms IH]; intros prev r Hlt Hs Hr.
  - simpl in Hr. subst r.
    repeat split; try (intros x []); auto; lia.
  - inversion Hlt as [|? ? Hm Hlt']; subst.
    inversion Hs as [|? ? Hs' Hm']; subst.
    assert (Hc : (closer c prev m = m /\ Z.abs (m - c) < Z.abs (prev - c))
                 \/ (closer c prev m = prev /\
                     Z.abs (prev - c) <= Z.abs (m - c))).
    { unfold closer.
      destruct (Z.ltb_spec (Z.abs (m - c)) (Z.abs (prev - c)));
        [left|right]; split; auto. }
    assert (Hnext : Forall (Z.lt (closer c prev m)) ms).
    { destruct Hc as [[E _]|[E _]]; rewrite E; [assumption|].
      eapply Forall_impl; [|exact Hm']. simpl; intros; lia. }
    simpl fold_left.
    destruct (IH _ _ Hnext Hs' eq_refl) as (Hin & Hle & Hmin & Heq & Htie).
    set (r := fold_left (closer c) ms (closer c prev m)) in *.
    clearbody r.
    destruct Hc as [[E Hd]|[E Hd]]; rewrite E in *; clear E.
    + repeat split.
      * destruct Hin as [->|Hin]; right; [now left|now right].
      * lia.
      * intros x [<-|Hx]; [assumption|now apply Hmin].
      * intros Hd'. lia.
      * intros x [<-|Hx] Hx'; [|now apply Htie].
        rewrite Heq by lia. lia.
    + repeat split.
      * destruct Hin as [->|Hin]; [now left|right; now right].
      * assumption.
      * intros x [<-|Hx]; [lia|now apply Hmin].
      * assumption.
      * intros x [<-|Hx] Hx'; [|now apply Htie].
        rewrite Heq by lia. lia.
Qed.

Lemma reduce_closer (c m0 : Z) (ms : list Z) (r : Z) :
  StronglySorted Z.lt (m0 :: ms) ->
  r = fold_left (closer c) ms m0 ->
  In r (m0 :: ms) /\
  (forall x, In x (m0 :: ms) -> Z.abs (r - c) <= Z.abs (x - c)) /\
  (forall x, In x (m0 :: ms) -> Z.abs (x - c) = Z.abs (r - c) -> r <= x).
Proof.
  intros Hs Hr. inversion Hs as [|? ? Hs' Hm]; subst m0 ms.
  destruct (fold_closer c _ _ _ Hm Hs' Hr)
    as (Hin & Hle & Hmin & Heq & Htie).
  repeat split.
  - simpl. destruct Hin; [left; congruence|now right].
  - intros x [<-|Hx]; [assumption|now apply Hmin].
  - intros x [<-|Hx] Hd; [|now apply Htie].
    rewrite Heq by lia. lia.
Qed.

Lemma reduce_closer_In (c m0 : Z) (ms : list Z) :
  StronglySorted Z.lt (m0 :: ms) ->
  In (fold_left (closer c) ms m0) (m0 :: ms).
Proof. intros Hs. now apply (reduce_closer c m0 ms _ Hs eq_refl). Qed.

(** *** Which strategy fires *)

Lemma process_sticky (this : t char) (word anchor : list char)
      (m0 : Z) (ms : list Z) :
  word <> [] ->
  lastAnchorChar this = JS.Str anchor -> anchor <> [] ->
  findMatches anchor 0 word [] = m0 :: ms ->
  pivotIndex (fst (process this word)) =
  fold_left (closer (JS.Math_floor (inject_Z (JS.length word) / 2)%Q)) ms m0.
Proof.
  intros Hw Ha Hne Hm.
  destruct word as [|w0 word']; [congruence|].
  destruct anchor as [|a s]; [congruence|].
  cbv beta iota zeta delta [process]. rewrite Ha, Hm. cbv beta iota.
  set (r := fold_left _ ms m0).
  assert (Hr : In r (m0 :: ms)).
  { apply reduce_closer_In. rewrite <- Hm. apply findMatches_sorted. }
  rewrite <- Hm in Hr. apply findMatches_In in Hr.
  destruct (Z.eqb_spec r (-1)); [lia|reflexivity].
Qed.

Lemma process_fallback (this : t char) (word : list char) :
  word <> [] ->
  JS.truthy (lastAnchorChar this) = false \/
  (exists anchor, lastAnchorChar this = JS.Str anchor /\
                  findMatches anchor 0 word [] = []) ->
  pivotIndex (fst (process this word)) =
  Z.max 0 (JS.Math_ceil (inject_Z (JS.length word) / 2)%Q - 1).
Proof.
  intros Hw Hcase.
  destruct word as [|w0 word']; [congruence|].
  cbv beta iota zeta delta [process].
  set (word := w0 :: word') in *.
  assert (Hfall :
    pivotIndex
      (fst (let p := JS.Math_ceil (inject_Z (JS.length word) / 2)%Q - 1 in
            ({| pivotIndex := if p <? 0 then 0 else p;
                anchorChar := JS.index word (if p <? 0 then 0 else p) |},
             {| lastAnchorChar :=
                  JS.index word (if p <? 0 then 0 else p) |}))) =
    Z.max 0 (JS.Math_ceil (inject_Z (JS.length word) / 2)%Q - 1)).
  { cbv zeta. simpl pivotIndex.
    destruct (Z.ltb_spec (JS.Math_ceil (inject_Z (JS.length word) / 2)%Q - 1)
                         0); lia. }
  destruct Hcase as [Hf|[anchor [Ha Hm]]].
  - destruct (lastAnchorChar this) as [| |[|a s]]; try discriminate Hf;
      exact Hfall.
  - rewrite Ha. destruct anchor as [|a s]; [exact Hfall|].
    rewrite Hm. exact Hfall.
Qed.

(** *** Specified behaviour of [process] *)

(** C1. With a remembered anchor that occurs in a non-empty [word] (up to
    case), [process] returns a matching index that is closest to
    [floor(length / 2)], and among the matching indices at that same
    distance it is the lowest one. *)
Theorem process_sticky_closest_earliest :
  forall (this : t char) (word : list char) (c : char) (s : list char)
         (i : Z),
    word <> [] ->
    lastAnchorChar this = JS.Str (c :: s) ->
    matchesAt (c :: s) word i ->
    let p := pivotIndex (fst (process this word)) in
    matchesAt (c :: s) word p /\
    (forall j, matchesAt (c :: s) word j ->
               distance word p <= distance word j) /\
    (forall j, matchesAt (c :: s) word j ->
               distance word j = distance word p -> p <= j).
Proof.
  intros this word c s i Hw Ha Hi p.
  apply findMatches_matchesAt in Hi.
  destruct (findMatches (c :: s) 0 word []) as [|m0 ms] eqn:Hm;
    [contradiction|].
  assert (Hp : p = fold_left
                     (closer (JS.Math_floor (inject_Z (JS.length word) / 2)%Q))
                     ms m0).
  { subst p. now apply process_sticky with (anchor := c :: s). }
  assert (Hs : StronglySorted Z.lt (m0 :: ms)).
  { rewrite <- Hm. apply findMatches_sorted. }
  destruct (reduce_closer _ m0 ms p Hs Hp) as (Hin & Hmin & Htie).
  unfold distance. rewrite <- Hm in Hin, Hmin, Htie.
  split; [|split].
  - now apply findMatches_matchesAt.
  - intros j Hj. apply Hmin. now apply findMatches_matchesAt.
  - intros j Hj. apply Htie. now apply findMatches_matchesAt.
Qed.

(** C2. Without a remembered anchor, or when no position of a non-empty
    [word] matches it, [process] returns [max(0, ceil(length / 2) - 1)]:
    [k] for the lengths [2k + 1] and [2k + 2], that is 0 for 1 and 2, 1 for
    3 and 4, 2 for 5 and 6, and so on. *)
Theorem process_fallback_center_left :
  forall (this : t char) (word : list char),
    word <> [] ->
    JS.truthy (lastAnchorChar this) = false \/
    (exists anchor, lastAnchorChar this = JS.Str anchor /\
                    forall i, ~ matchesAt anchor word i) ->
    let len := JS.length word in
    let p := pivotIndex (fst (process this word)) in
    p = Z.max 0 (JS.Math_ceil (inject_Z len / 2)%Q - 1) /\
    (forall k, len = 2 * k + 1 \/ len = 2 * k + 2 -> p = k).
Proof.
  intros this word Hw Hcase len p.
  assert (Hp : p = Z.max 0 (JS.Math_ceil (inject_Z len / 2)%Q - 1)).
  { subst p len. apply process_fallback; [assumption|].
    destruct Hcase as [Hf|[anchor [Ha Hno]]]; [now left|right].
    exists anchor. split; [assumption|].
    destruct (findMatches anchor 0 word []) as [|m0 ms] eqn:Hm;
      [reflexivity|].
    exfalso. apply (Hno m0). apply findMatches_matchesAt.
    rewrite Hm. now left. }
  split; [exact Hp|].
  intros k Hk. rewrite Hp, JSFacts.Math_ceil_half. subst len.
  assert (1 <= JS.length word).
  { destruct word; [congruence|]. rewrite JSFacts.length_cons.
    pose proof (JSFacts.length_nonneg word). lia. }
  pose proof (Z.div_mod (JS.length word + 1) 2 ltac:(lia)).
  pose proof (Z.mod_pos_bound (JS.length word + 1) 2 ltac:(lia)).
  lia.
Qed.

(** C6. On a non-empty [word], in every state of the engine, the pivot is
    an index of [word]. *)
Theorem process_pivot_in_range :
  forall (this : t char) (word : list char),
    word <> [] ->
    0 <= pivotIndex (fst (process this word)) < JS.length word.
Proof.
  intros this word Hw.
  assert (Hlen : 1 <= JS.length word).
  { destruct word; [congruence|]. rewrite JSFacts.length_cons.
    pose proof (JSFacts.length_nonneg word). lia. }
  assert (Hfb : 0 <= Z.max 0 (JS.Math_ceil (inject_Z (JS.length word) / 2)%Q
                              - 1) < JS.length word).
  { rewrite JSFacts.Math_ceil_half.
    pose proof (Z.div_mod (JS.length word + 1) 2 ltac:(lia)).
    pose proof (Z.mod_pos_bound (JS.length word + 1) 2 ltac:(lia)).
    lia. }
  destruct (lastAnchorChar this) as [| |anchor] eqn:Ha;
    try (rewrite process_fallback; [exact Hfb|assumption|left; now rewrite Ha]).
  destruct anchor as [|a s];
    [rewrite process_fallback; [exact Hfb|assumption|left; now rewrite Ha]|].
  destruct (findMatches (a :: s) 0 word []) as [|m0 ms] eqn:Hm.
  - rewrite process_fallback; [exact Hfb|assumption|].
    right. now exists (a :: s).
  - rewrite (process_sticky this word (a :: s) m0 ms Hw Ha
               ltac:(discriminate) Hm).
    set (r := fold_left _ ms m0).
    assert (Hr : In r (m0 :: ms)).
    { apply reduce_closer_In. rewrite <- Hm. apply findMatches_sorted. }
    rewrite <- Hm in Hr. apply findMatches_In in Hr.
    destruct Hr as [H0 [wi [Hn _]]].
    assert (Hlt : (Z.to_nat (r - 0) < List.length word)%nat).
    { apply nth_error_Some. now rewrite Hn. }
    unfold JS.length. lia.
Qed.

(** C7. On the empty string [process] returns the pivot 0 and the empty
    anchor, whatever the engine remembers; [process] is a total function,
    no path of it throws. *)
Theorem process_empty_result :
  forall this : t char,
    fst (process this []) =
    {| pivotIndex := 0; anchorChar := JS.Str [] |}.
Proof. intros this. reflexivity. Qed.

(** C10. On the empty string [process] leaves the engine as it was, so the
    remembered anchor still decides the calls that follow. *)
Theorem process_empty_keeps_anchor :
  forall this : t char,
    snd (process this []) = this /\
    lastAnchorChar (snd (process this [])) = lastAnchorChar this /\
    (forall word, process (snd (process this [])) word = process this word).
Proof. intros this. repeat split. Qed.

End Engine.

(** *** On concrete words *)

Local Abbreviation process := (AnchorEngine.process ascii_dec App.toLowerCase).
Local Abbreviation matchesAt :=
  (AnchorEngine.matchesAt ascii_dec App.toLowerCase).

Example process_cat :
  process AnchorEngine.new (Demo.str "cat") =
  ({| pivotIndex := 1; anchorChar := JS.Str (Demo.str "a") |},
   {| lastAnchorChar := JS.Str (Demo.str "a") |}).
Proof. reflexivity. Qed.

Example process_banana_after_cat :
  pivotIndex
    (fst (process (snd (process AnchorEngine.new (Demo.str "cat")))
                  (Demo.str "banana"))) = 3.
Proof. reflexivity. Qed.

(** Both [a] of [axa] are at distance 1 of the centre 1: the first wins. *)
Example process_tie_earlier :
  pivotIndex (fst (process Demo.anchorA (Demo.str "axa"))) = 0.
Proof. reflexivity. Qed.

Example process_after_reset :
  pivotIndex
    (fst (process
            (AnchorEngine.reset
               (snd (process AnchorEngine.new (Demo.str "banana"))))
            (Demo.str "apple"))) = 2.
Proof. reflexivity. Qed.

Lemma process_sticky_closest_earliest_witness :
  Demo.str "bAnana" <> [] /\
  lastAnchorChar Demo.anchorA = JS.Str (Demo.str "A") /\
  matchesAt (Demo.str "A") (Demo.str "bAnana") 5 /\
  (let p := pivotIndex (fst (process Demo.anchorA (Demo.str "bAnana")))
   in
   matchesAt (Demo.str "A") (Demo.str "bAnana") p /\
   (forall j, matchesAt (Demo.str "A") (Demo.str "bAnana") j ->
              distance (Demo.str "bAnana") p
              <= distance (Demo.str "bAnana") j) /\
   (forall j, matchesAt (Demo.str "A") (Demo.str "bAnana") j ->
              distance (Demo.str "bAnana") j
              = distance (Demo.str "bAnana") p -> p <= j)).
Proof.
  assert (h1 : Demo.str "bAnana" <> []) by discriminate.
  assert (h2 : lastAnchorChar Demo.anchorA = JS.Str (Demo.str "A"))
    by reflexivity.
  assert (h3 : matchesAt (Demo.str "A") (Demo.str "bAnana") 5).
  { split; [lia|]. exists "a"%char. split; reflexivity. }
  exact (conj h1 (conj h2 (conj h3
           (process_sticky_closest_earliest ascii ascii_dec App.toLowerCase
              Demo.anchorA (Demo.str "bAnana") "A"%char [] 5
              h1 h2 h3)))).
Defined.

Lemma process_fallback_center_left_witness :
  Demo.str "quick" <> [] /\
  (JS.truthy (lastAnchorChar (@AnchorEngine.new ascii)) = false \/
   (exists anchor, lastAnchorChar (@AnchorEngine.new ascii) = JS.Str anchor /\
                   forall i, ~ matchesAt anchor (Demo.str "quick") i)) /\
  (let len := JS.length (Demo.str "quick") in
   let p := pivotIndex (fst (process AnchorEngine.new (Demo.str "quick")))
   in
   p = Z.max 0 (JS.Math_ceil (inject_Z len / 2)%Q - 1) /\
   (forall k, len = 2 * k + 1 \/ len = 2 * k + 2 -> p = k)).
Proof.
  assert (h1 : Demo.str "quick" <> []) by discriminate.
  assert (h2 : JS.truthy (lastAnchorChar (@AnchorEngine.new ascii)) = false \/
               (exists anchor,
                   lastAnchorChar (@AnchorEngine.new ascii) = JS.Str anchor /\
                   forall i, ~ matchesAt anchor (Demo.str "quick") i))
    by (left; reflexivity).
  exact (conj h1 (conj h2
           (process_fallback_center_left ascii ascii_dec App.toLowerCase
              AnchorEngine.new (Demo.str "quick") h1 h2))).
Defined.

Lemma process_pivot_in_range_witness :
  Demo.str "bAnana" <> [] /\
  0 <= pivotIndex (fst (process Demo.anchorA (Demo.str "bAnana")))
    < JS.length (Demo.str "bAnana").
Proof.
  assert (h1 : Demo.str "bAnana" <> []) by discriminate.
  exact (conj h1
           (process_pivot_in_range ascii ascii_dec App.toLowerCase
              Demo.anchorA (Demo.str "bAnana") h1)).
Defined.

End AnchorEngineFacts.

(** ** The playback loop *)

Module AppFacts.
Import App.

(** Closes a conjunction of closed facts, each by evaluation. *)
Ltac by_computation :=
  repeat (apply conj; [vm_compute; reflexivity|]); vm_compute; reflexivity.

(** *** Chunks *)

Lemma slice_length {A : Type} (a : list A) (i k : Z) :
  0 <= i < Z.of_nat (List.length a) -> 1 <= k ->
  1 <= Z.of_nat (List.length (slice a i (i + k))) <= k.
Proof.
  intros Hi Hk. unfold slice.
  destruct (Z.ltb_spec i 0); [lia|].
  destruct (Z.ltb_spec (i + k) 0); [lia|].
  rewrite length_firstn, length_skipn. lia.
Qed.

Lemma slice_nonempty {A : Type} (a : list A) (i e : Z) :
  slice a i e <> [] ->
  i < Z.of_nat (List.length a) /\
  1 <= Z.of_nat (List.length (slice a i e)).
Proof.
  intros Hne. split.
  - destruct (Z.lt_ge_cases i (Z.of_nat (List.length a))) as [|Hge];
      [assumption|].
    exfalso. apply Hne. unfold slice.
    destruct (Z.ltb_spec i 0); [lia|].
    rewrite skipn_all2 by lia. apply firstn_nil.
  - destruct (slice a i e); [congruence|]. simpl List.length. lia.
Qed.

Lemma lastElement_Some {A : Type} (a : list A) :
  a <> [] -> exists x, lastElement a = Some x.
Proof.
  intros Ha. unfold lastElement.
  destruct (nth_error a (List.length a - 1)) as [x|] eqn:E; [now exists x|].
  apply nth_error_None in E. destruct a; [congruence|simpl in E; lia].
Qed.

Lemma chunk_nonempty (this : t) :
  0 <= currentIndex this < JS.length (words this) ->
  1 <= chunkSize this ->
  slice (words this) (currentIndex this)
        (currentIndex this + chunkSize this) <> [].
Proof.
  intros Hi Hk Hnil.
  pose proof (slice_length (words this) _ _ Hi Hk) as H.
  rewrite Hnil in H. simpl in H. lia.
Qed.

(** *** Frame of [renderChunk] *)

Lemma renderChunk_frame (chunk : list jsString) (this : t) :
  exists e, renderChunk chunk this = set_engine e this.
Proof.
  unfold renderChunk.
  destruct (AnchorEngine.process _ _ _ _) as [r e]. now exists e.
Qed.

(** *** One call of [runLoop] *)

Lemma runLoop_paused (now : Z) (this : t) :
  isPlaying this = false -> runLoop now this = Normal this.
Proof. intros H. unfold runLoop. now rewrite H. Qed.

Lemma runLoop_finish (now : Z) (this : t) :
  isPlaying this = true ->
  JS.length (words this) <= currentIndex this ->
  runLoop now this = Normal (showReport (stop this)).
Proof.
  intros Hp Hi. unfold runLoop. rewrite Hp. simpl negb. cbv iota.
  destruct (currentIndex this >=? JS.length (words this)) eqn:E;
    [reflexivity|].
  rewrite Z.geb_leb in E. apply Z.leb_gt in E. lia.
Qed.

(** The rate after the acceleration step of a tick showing [n] words. *)
Lemma runLoop_tick (now : Z) (this : t) (lastWord : jsString) :
  isPlaying this = true ->
  currentIndex this < JS.length (words this) ->
  let chunk := slice (words this) (currentIndex this)
                     (currentIndex this + chunkSize this) in
  let rate := JS.Math_min 1200
                (wpm this + 0.5 * inject_Z (JS.length chunk))%Q in
  lastElement chunk = Some lastWord ->
  exists (e : AnchorEngine.t ascii) (d : Q),
    runLoop now this =
    Normal
      (set_timer (Some d)
         (set_sessionData
            (sessionData this ++
               [{| Sample.words := join spaceString chunk;
                   Sample.wpm := JS.Math_round rate;
                   Sample.timestamp := now - sessionStartTime this |}])
            (set_wpm rate
               (set_engine e
                  (set_currentIndex (currentIndex this + chunkSize this)
                                    this))))) /\
    (d == specDelay rate (JS.length chunk) lastWord)%Q.
Proof.
  intros Hp Hi chunk rate Hlast.
  destruct (renderChunk_frame chunk
              (set_currentIndex (currentIndex this + chunkSize this) this))
    as [e He].
  unfold runLoop. rewrite Hp. simpl negb. cbv iota.
  destruct (currentIndex this >=? JS.length (words this)) eqn:E.
  { rewrite Z.geb_leb in E. apply Z.leb_le in E. lia. }
  cbv zeta. fold chunk. rewrite He, Hlast.
  cbn [wpm sessionData sessionStartTime set_wpm set_engine set_currentIndex
       set_sessionData].
  fold rate.
  eexists e, _. split; [reflexivity|].
  unfold specDelay, pauseWords.
  destruct (endsWith lastWord "." || endsWith lastWord "!"
            || endsWith lastWord "?"); [reflexivity|].
  destruct (endsWith lastWord "," || endsWith lastWord ";");
    [reflexivity|].
  now rewrite Qmult_0_r.
Qed.

Lemma specDelay_factor (r : Q) (n : Z) (lastWord : jsString) :
  (specDelay r n lastWord ==
   60000 * (inject_Z n + pauseWords lastWord) * / r)%Q.
Proof. unfold specDelay, Qdiv. ring. Qed.

Lemma pauseWords_nonneg (lastWord : jsString) :
  (0 <= pauseWords lastWord)%Q.
Proof.
  unfold pauseWords.
  destruct (_ || _); [discriminate|]. destruct (_ || _); discriminate.
Qed.

(** A higher rate gives a strictly shorter delay. *)
Lemma specDelay_decreasing (r r' : Q) (n : Z) (lastWord : jsString) :
  (0 < r)%Q -> (r < r')%Q -> 1 <= n ->
  (specDelay r' n lastWord < specDelay r n lastWord)%Q.
Proof.
  intros Hr Hlt Hn. rewrite !specDelay_factor.
  assert (Hpos : (0 < 60000 * (inject_Z n + pauseWords lastWord))%Q).
  { pose proof (pauseWords_nonneg lastWord).
    assert (1 <= inject_Z n)%Q by (rewrite Zle_Qle in Hn; exact Hn).
    apply Qmult_lt_0_compat; [reflexivity|lra]. }
  apply Qmult_lt_l; [exact Hpos|].
  assert (Hr' : (0 < r')%Q) by lra.
  exact (proj1 (Qinv_lt_contravar r r' Hr Hr') Hlt).
Qed.

(** *** The recorded rates along a run *)

Lemma StronglySorted_snoc (l : list Z) (y : Z) :
  StronglySorted Z.le l -> Forall (fun x => x <= y) l ->
  StronglySorted Z.le (l ++ [y]).
Proof.
  induction 1 as [|x l Hs IH Hx]; intros Hy; simpl.
  - repeat constructor.
  - inversion Hy as [|? ? Hxy Hy']; subst.
    constructor; [now apply IH|].
    apply Forall_app. split; [assumption|]. now repeat constructor.
Qed.

Lemma Math_round_1200 : JS.Math_round 1200 = 1200.
Proof. reflexivity. Qed.

(** The rate after an acceleration step lies above every rate recorded
    before it. *)
Lemma accelerated_rate_bounds (w a : Q) (r : Z) :
  (0 <= a)%Q -> r <= 1200 -> r <= JS.Math_round w ->
  r <= JS.Math_round (JS.Math_min 1200 (w + a)) <= 1200.
Proof.
  intros Ha H1 H2. split.
  - unfold JS.Math_min. destruct (Qle_bool 1200 (w + a)).
    + now rewrite Math_round_1200.
    + etransitivity; [exact H2|]. apply JSFacts.Math_round_le. lra.
  - rewrite <- Math_round_1200 at 2. apply JSFacts.Math_round_le.
    apply JSFacts.Math_min_le_l.
Qed.

Lemma ratesOk_push (this : t) (rate : Q) (a : Q) (sample : Sample.t)
      (this' : t) :
  ratesOk this -> (0 <= a)%Q ->
  rate = JS.Math_min 1200 (wpm this + a) ->
  Sample.wpm sample = JS.Math_round rate ->
  wpm this' = rate ->
  sessionData this' = sessionData this ++ [sample] ->
  ratesOk this'.
Proof.
  intros [Hs Hb] Ha Hrate Hsample Hw Hd.
  unfold ratesOk, sessionRates in *. rewrite Hd, Hw, map_app. simpl map.
  rewrite Hsample.
  assert (Hall : Forall (fun r => r <= JS.Math_round rate <= 1200)
                        (map Sample.wpm (sessionData this))).
  { eapply Forall_impl; [|exact Hb]. simpl. intros r [H1 H2].
    subst rate. now apply accelerated_rate_bounds. }
  split.
  - apply StronglySorted_snoc; [assumption|].
    eapply Forall_impl; [|exact Hall]. simpl; intros; lia.
  - apply Forall_app. split.
    + eapply Forall_impl; [|exact Hall]. simpl; intros; lia.
    + constructor; [|constructor]. split; [|lia].
      subst rate. rewrite <- Math_round_1200 at 2.
      apply JSFacts.Math_round_le, JSFacts.Math_min_le_l.
Qed.

(** One call of [runLoop] on a playing object: it returns, keeps what is
    recorded in order, and either ends the session or moves on with a
    timeout pending. *)
Lemma runLoop_step (now : Z) (this : t) :
  isPlaying this = true ->
  0 <= currentIndex this -> 1 <= chunkSize this -> ratesOk this ->
  exists this',
    runLoop now this = Normal this' /\
    words this' = words this /\ chunkSize this' = chunkSize this /\
    ratesOk this' /\
    ((isPlaying this' = false /\ timer this' = None /\
      reportHidden this' = false /\
      JS.length (words this) <= currentIndex this) \/
     (isPlaying this' = true /\ timer this' <> None /\
      currentIndex this < currentIndex this' /\
      currentIndex this < JS.length (words this))).
Proof.
  intros Hp Hi Hk Hok.
  destruct (Z.le_gt_cases (JS.length (words this)) (currentIndex this))
    as [Hend|Hmore].
  - exists (showReport (stop this)). split; [now apply runLoop_finish|].
    repeat (split; [reflexivity|]). split; [exact Hok|].
    left. repeat split. exact Hend.
  - assert (Hrange : 0 <= currentIndex this < JS.length (words this))
      by lia.
    destruct (lastElement_Some _ (chunk_nonempty this Hrange Hk))
      as [lastWord Hlast].
    destruct (runLoop_tick now this lastWord Hp Hmore Hlast)
      as (e & d & Hrun & _).
    eexists. split; [exact Hrun|].
    repeat (split; [reflexivity|]). split.
    + pose proof (slice_length (words this) _ _ Hrange Hk) as Hn.
      set (chunk := slice (words this) (currentIndex this)
                          (currentIndex this + chunkSize this)) in *.
      eapply ratesOk_push with (a := (0.5 * inject_Z (JS.length chunk))%Q).
      6: reflexivity. 5: reflexivity. 4: reflexivity. 3: reflexivity.
      * exact Hok.
      * assert (Hq : (inject_Z 0 <= inject_Z (JS.length chunk))%Q).
        { rewrite <- Zle_Qle. unfold JS.length. lia. }
        change (inject_Z 0) with 0%Q in Hq. lra.
    + right. cbn. split; [exact Hp|]. split; [discriminate|]. lia.
Qed.

Lemma fireTimers_completes (fuel : nat) :
  forall (clock : nat -> Z) (this : t),
    isPlaying this = true -> timer this <> None ->
    0 <= currentIndex this -> 1 <= chunkSize this -> ratesOk this ->
    Z.max 0 (JS.length (words this) - currentIndex this) < Z.of_nat fuel ->
    exists final,
      fireTimers fuel clock this = Some (Normal final) /\
      isPlaying final = false /\ timer final = None /\
      reportHidden final = false /\ ratesOk final.
Proof.
  induction fuel as [|fuel IH]; intros clock this Hp Ht Hi Hk Hok Hfuel;
    [lia|].
  simpl fireTimers. unfold timerFires.
  destruct (timer this) as [d|] eqn:Etimer; [|congruence].
  destruct (runLoop_step (clock O) (set_timer None this) Hp Hi Hk Hok)
    as (this' & Hrun & Hwords & Hchunk & Hok' & Hcase).
  rewrite Hrun.
  destruct Hcase as [(Hp' & Ht' & Hr' & _)|(Hp' & Ht' & Hlt & Hlen)].
  - exists this'. destruct fuel; simpl; rewrite Ht'; auto.
  - cbn in Hwords, Hchunk, Hlt, Hlen.
    apply IH; try assumption; rewrite ?Hwords, ?Hchunk; lia.
Qed.

(** [start()] on an idle object and the timeouts that follow. *)
Lemma start_completes (t0 t1 : Z) (clock : nat -> Z) (this : t)
      (fuel : nat) :
  0 <= currentIndex this -> 1 <= chunkSize this -> ratesOk this ->
  JS.length (words this) < Z.of_nat fuel ->
  exists started final,
    start t0 t1 this = Normal started /\
    fireTimers fuel clock started = Some (Normal final) /\
    isPlaying final = false /\ timer final = None /\
    reportHidden final = false /\ ratesOk final.
Proof.
  intros Hi Hk Hok Hfuel. unfold start.
  destruct (runLoop_step t1 (set_sessionStartTime t0
                               (set_isPlaying true this))
              eq_refl Hi Hk Hok)
    as (this' & Hrun & Hwords & Hchunk & Hok' & Hcase).
  exists this'. cbv zeta. rewrite Hrun.
  destruct Hcase as [(Hp' & Ht' & Hr' & _)|(Hp' & Ht' & Hlt & Hlen)].
  - exists this'. split; [reflexivity|].
    split; [|auto]. destruct fuel; simpl; now rewrite Ht'.
  - cbn in Hwords, Hchunk, Hlt, Hlen.
    destruct (fireTimers_completes fuel clock this') as (final & Hf);
      try assumption; rewrite ?Hwords, ?Hchunk; try lia.
    exists final. split; [reflexivity|exact Hf].
Qed.

(** [togglePlay()] on an idle object at the beginning or at the end of its
    words is a fresh session: the text is parsed again and the recorded
    samples are dropped before [start()]. *)
Lemma togglePlay_fresh (t0 t1 : Z) (this : t) :
  isPlaying this = false ->
  0 <= currentIndex this ->
  currentIndex this = 0 \/ JS.length (words this) <= currentIndex this ->
  parseText this <> [] ->
  exists this0,
    togglePlay t0 t1 this = start t0 t1 this0 /\
    words this0 = parseText this /\ sessionData this0 = [] /\
    0 <= currentIndex this0 /\ chunkSize this0 = chunkSize this.
Proof.
  intros Hidle Hi Hfresh Hparse. unfold togglePlay. rewrite Hidle.
  assert (Hlen : (JS.length (parseText this) =? 0) = false).
  { apply Z.eqb_neq. destruct (parseText this); [congruence|].
    rewrite JSFacts.length_cons.
    pose proof (JSFacts.length_nonneg l). lia. }
  destruct ((0 <? JS.length (words this))
            && (currentIndex this >=? JS.length (words this))) eqn:E1.
  - cbn -[parseText JS.length start]. rewrite Bool.orb_true_r.
    change (parseText (set_sessionData [] _)) with (parseText this).
    cbn -[parseText JS.length start]. rewrite Hlen.
    eexists. split; [reflexivity|]. cbn -[parseText].
    repeat split; lia.
  - assert (E2 : (JS.length (words this) =? 0)
                 || (currentIndex this =? 0) = true).
    { apply Bool.orb_true_iff. destruct Hfresh as [H0|Hend].
      - right. now apply Z.eqb_eq.
      - left. apply Z.eqb_eq.
        apply Bool.andb_false_iff in E1. destruct E1 as [E|E].
        + apply Z.ltb_ge in E. pose proof (JSFacts.length_nonneg (words this)).
          lia.
        + rewrite Z.geb_leb in E. apply Z.leb_gt in E. lia. }
    rewrite E2. cbn -[parseText JS.length start]. rewrite Hlen.
    eexists. split; [reflexivity|]. cbn -[parseText].
    repeat split; lia.
Qed.


(** *** Specified behaviour of a tick *)


(** C9. A tick with words left that shows a non-empty chunk first raises
    the rate by 0.5 per word of the chunk, capped at 1200; the sample it
    records and the delay it schedules are computed from that raised rate,
    which below the cap is strictly above the rate the tick started with,
    so the delay is strictly shorter than the one at the starting rate. *)
Theorem runLoop_accelerates_first :
  forall (now : Z) (this : t),
    isPlaying this = true ->
    currentIndex this < JS.length (words this) ->
    let chunk := slice (words this) (currentIndex this)
                       (currentIndex this + chunkSize this) in
    let rate := JS.Math_min 1200
                  (wpm this + 0.5 * inject_Z (JS.length chunk))%Q in
    chunk <> [] ->
    exists (this' : t) (sample : Sample.t) (lastWord : jsString) (d : Q),
      runLoop now this = Normal this' /\
      wpm this' = rate /\
      sessionData this' = sessionData this ++ [sample] /\
      Sample.wpm sample = JS.Math_round rate /\
      lastElement chunk = Some lastWord /\
      timer this' = Some d /\
      (d == specDelay rate (JS.length chunk) lastWord)%Q /\
      (rate <= 1200)%Q /\
      ((wpm this < 1200)%Q -> (wpm this < rate)%Q) /\
      ((0 < wpm this < 1200)%Q ->
       (d < specDelay (wpm this) (JS.length chunk) lastWord)%Q).
Proof.
  intros now this Hp Hi chunk rate Hne.
  destruct (lastElement_Some chunk Hne) as [lastWord Hlast].
  destruct (runLoop_tick now this lastWord Hp Hi Hlast)
    as (e & d & Hrun & Hd).
  assert (Hn : 1 <= JS.length chunk)
    by (apply (slice_nonempty _ _ _ Hne)).
  assert (Hinc : ((wpm this < 1200)%Q -> (wpm this < rate)%Q)).
  { intros Hw. subst rate. unfold JS.Math_min.
    assert (1 <= inject_Z (JS.length chunk))%Q
      by (rewrite Zle_Qle in Hn; exact Hn).
    destruct (Qle_bool _ _); [exact Hw|lra]. }
  eexists _, _, lastWord, d. split; [exact Hrun|].
  repeat (split; [reflexivity|]).
  split; [exact Hlast|]. split; [reflexivity|]. split; [exact Hd|].
  split; [apply JSFacts.Math_min_le_l|]. split; [exact Hinc|].
  intros [H0 H1]. rewrite Hd.
  apply specDelay_decreasing; auto.
Qed.

(** *** Specified behaviour of a whole run *)

(** C5. A run from a fresh start to its end, with no event between the
    timeouts: [togglePlay()] returns, the timeouts that follow end the
    session with the report shown, and the rates recorded in the session
    data never decrease and never exceed 1200. *)
Theorem run_rates_monotone :
  forall (t0 t1 : Z) (clock : nat -> Z) (this : t),
    isPlaying this = false ->
    0 <= currentIndex this ->
    currentIndex this = 0 \/ JS.length (words this) <= currentIndex this ->
    1 <= chunkSize this ->
    parseText this <> [] ->
    exists started final,
      togglePlay t0 t1 this = Normal started /\
      fireTimers (S (List.length (parseText this))) clock started
      = Some (Normal final) /\
      isPlaying final = false /\ timer final = None /\
      reportHidden final = false /\
      StronglySorted Z.le (sessionRates final) /\
      Forall (fun r => r <= 1200) (sessionRates final).
Proof.
  intros t0 t1 clock this Hidle Hi Hfresh Hk Hparse.
  destruct (togglePlay_fresh t0 t1 this Hidle Hi Hfresh Hparse)
    as (this0 & Htoggle & Hwords & Hdata & Hi0 & Hk0).
  assert (Hok : ratesOk this0).
  { unfold ratesOk, sessionRates. rewrite Hdata. split; constructor. }
  destruct (start_completes t0 t1 clock this0
              (S (List.length (parseText this))) Hi0)
    as (started & final & Hstart & Hrun & Hp & Ht & Hr & Hs & Hb);
    [lia|exact Hok|rewrite Hwords; unfold JS.length; lia|].
  exists started, final. rewrite Htoggle.
  repeat (split; [assumption|]).
  eapply Forall_impl; [|exact Hb]. simpl. tauto.
Qed.

(** *** The heat map *)

Lemma fold_left_max (xs : list Z) :
  forall x,
    let m := fold_left Z.max xs x in
    In m (x :: xs) /\ forall r, In r (x :: xs) -> r <= m.
Proof.
  induction xs as [|y xs IH]; intros x; simpl.
  - split; [now left|]. intros r [<-|[]]. lia.
  - destruct (IH (Z.max x y)) as [Hin Hmax]. split.
    + destruct Hin as [Hin|Hin]; [|right; now right].
      rewrite <- Hin. destruct (Z.max_spec x y) as [[_ ->]|[_ ->]];
        [right; now left|now left].
    + pose proof (Hmax (Z.max x y) (or_introl eq_refl)).
      intros r [Hr|[Hr|Hr]]; [lia|lia|].
      apply Hmax. now right.
Qed.

Lemma fold_left_min (xs : list Z) :
  forall x,
    let m := fold_left Z.min xs x in
    In m (x :: xs) /\ forall r, In r (x :: xs) -> m <= r.
Proof.
  induction xs as [|y xs IH]; intros x; simpl.
  - split; [now left|]. intros r [<-|[]]. lia.
  - destruct (IH (Z.min x y)) as [Hin Hmin]. split.
    + destruct Hin as [Hin|Hin]; [|right; now right].
      rewrite <- Hin. destruct (Z.min_spec x y) as [[_ ->]|[_ ->]];
        [now left|right; now left].
    + pose proof (Hmin (Z.min x y) (or_introl eq_refl)).
      intros r [Hr|[Hr|Hr]]; [lia|lia|].
      apply Hmin. now right.
Qed.


(** *** A change of rate while playing *)

(** What a call of [runLoop] leaves alone, whether it returns or throws:
    the session start, the samples already recorded, and the position,
    which only moves forward. *)
Lemma runLoop_frame (now : Z) (this : t) :
  match runLoop now this with
  | Normal this' | Throw this' =>
      sessionStartTime this' = sessionStartTime this /\
      (exists new, sessionData this' = sessionData this ++ new) /\
      (0 <= chunkSize this -> currentIndex this <= currentIndex this')
  end.
Proof.
  unfold runLoop. destruct (isPlaying this); simpl negb; cbv iota.
  2: { repeat split; [exists []; now rewrite app_nil_r|lia]. }
  destruct (currentIndex this >=? JS.length (words this)).
  { cbn. repeat split; [exists []; now rewrite app_nil_r|lia]. }
  cbv zeta.
  destruct (renderChunk_frame
              (slice (words this) (currentIndex this)
                     (currentIndex this + chunkSize this))
              (set_currentIndex (currentIndex this + chunkSize this) this))
    as [e He].
  rewrite He. destruct (lastElement _); cbn;
    (split; [reflexivity|]); (split; [eexists; reflexivity|lia]).
Qed.

(** The slider handler on a playing object: [start()] takes the clock again
    as the session start; the recorded samples stay and the position is not
    taken back. *)
Lemma wpmSliderInput_playing (value t0 t1 : Z) (this : t) :
  isPlaying this = true ->
  match wpmSliderInput value t0 t1 this with
  | Normal this' | Throw this' =>
      sessionStartTime this' = t0 /\
      (exists new, sessionData this' = sessionData this ++ new) /\
      (0 <= chunkSize this -> currentIndex this <= currentIndex this')
  end.
Proof.
  intros Hp. unfold wpmSliderInput. cbn [isPlaying set_wpm]. rewrite Hp.
  unfold start. cbv zeta.
  exact (runLoop_frame t1
           (set_sessionStartTime t0
              (set_isPlaying true (stop (set_wpm (inject_Z value) this))))).
Qed.

(** The arrow keys change the rate of a playing object and nothing else:
    the pending timeout, the session start, the samples and the position
    stay. *)
Lemma keydown_arrow_frame (t0 t1 : Z) (this : t) (code : key) :
  code = ArrowRight \/ code = ArrowLeft ->
  exists rate,
    keydown false code t0 t1 this = Normal (set_wpm rate this).
Proof. intros [->| ->]; eexists; reflexivity. Qed.

(** C4, evaluated on the code. The slider is moved to 400 when the clock
    reads 5000, in a session that plays since the clock read 1000: the
    position goes on from 1 to 2 and the first sample stays, but the
    session start becomes 5000, so the sample recorded next carries the
    time stamp 1 where 4001 ms of the session have passed. *)
Theorem wpmSliderInput_resets_sessionStartTime :
  exists this',
    wpmSliderInput 400 5000 5001 Demo.midSession = Normal this' /\
    sessionStartTime Demo.midSession = 1000 /\
    sessionStartTime this' = 5000 /\
    currentIndex Demo.midSession = 1 /\ currentIndex this' = 2 /\
    map Sample.timestamp (sessionData Demo.midSession) = [0] /\
    map Sample.timestamp (sessionData this') = [0; 1] /\
    sessionRates this' = [301; 401].
Proof. eexists. by_computation. Qed.

(** *** On concrete sessions *)

Example parseText_fresh :
  parseText Demo.fresh =
  [Demo.str "The"; Demo.str "quick"; Demo.str "fox."].
Proof. reflexivity. Qed.

(** At the rate 299.5 the tick computes at 300: the word [end.] stays for
    200 + 300 ms, and 300 is the rate recorded. *)
Example runLoop_end_at_300 :
  exists this' d,
    runLoop 1200 Demo.beforeEnd = Normal this' /\
    timer this' = Some d /\ (d == 500)%Q /\ (wpm this' == 300)%Q /\
    sessionRates this' = [300].
Proof. eexists _, _. by_computation. Qed.

(** At the rate 300 the same tick computes at 300.5. *)
Example runLoop_end_from_300 :
  exists this' d,
    runLoop 1200 Demo.beforeEnd300 = Normal this' /\
    timer this' = Some d /\ (d == 150000 / 300.5)%Q /\ (d < 500)%Q /\
    (wpm this' == 300.5)%Q /\ sessionRates this' = [301].
Proof. eexists _, _. by_computation. Qed.

Example run_fresh_rates :
  exists started final,
    togglePlay 1000 1001 Demo.fresh = Normal started /\
    fireTimers 4 Demo.clock started = Some (Normal final) /\
    sessionRates final = [301; 301; 302] /\
    map Sample.timestamp (sessionData final) = [1; 200; 400].
Proof. eexists _, _. by_computation. Qed.

(** An empty chunk: with the chunk size 0 the tick throws, after it has
    recorded its sample. *)
Example runLoop_chunkSize_0 :
  exists this',
    runLoop 1200 (set_chunkSize 0 Demo.beforeEnd) = Throw this' /\
    sessionRates this' = [300] /\ timer this' = None.
Proof. eexists. by_computation. Qed.


Lemma runLoop_accelerates_first_witness :
  isPlaying Demo.beforeEnd300 = true /\
  currentIndex Demo.beforeEnd300 < JS.length (words Demo.beforeEnd300) /\
  slice (words Demo.beforeEnd300) (currentIndex Demo.beforeEnd300)
        (currentIndex Demo.beforeEnd300 + chunkSize Demo.beforeEnd300)
  <> [] /\
  (let chunk := slice (words Demo.beforeEnd300)
                      (currentIndex Demo.beforeEnd300)
                      (currentIndex Demo.beforeEnd300
                       + chunkSize Demo.beforeEnd300) in
   let rate := JS.Math_min 1200
                 (wpm Demo.beforeEnd300
                  + 0.5 * inject_Z (JS.length chunk))%Q in
   exists (this' : t) (sample : Sample.t) (lastWord : jsString) (d : Q),
     runLoop 1200 Demo.beforeEnd300 = Normal this' /\
     wpm this' = rate /\
     sessionData this' = sessionData Demo.beforeEnd300 ++ [sample] /\
     Sample.wpm sample = JS.Math_round rate /\
     lastElement chunk = Some lastWord /\
     timer this' = Some d /\
     (d == specDelay rate (JS.length chunk) lastWord)%Q /\
     (rate <= 1200)%Q /\
     ((wpm Demo.beforeEnd300 < 1200)%Q ->
      (wpm Demo.beforeEnd300 < rate)%Q) /\
     ((0 < wpm Demo.beforeEnd300 < 1200)%Q ->
      (d < specDelay (wpm Demo.beforeEnd300) (JS.length chunk)
                     lastWord)%Q)).
Proof.
  assert (h1 : isPlaying Demo.beforeEnd300 = true) by reflexivity.
  assert (h2 : currentIndex Demo.beforeEnd300
               < JS.length (words Demo.beforeEnd300)) by (cbn; lia).
  assert (h3 : slice (words Demo.beforeEnd300)
                     (currentIndex Demo.beforeEnd300)
                     (currentIndex Demo.beforeEnd300
                      + chunkSize Demo.beforeEnd300) <> [])
    by (vm_compute; discriminate).
  exact (conj h1 (conj h2 (conj h3
           (runLoop_accelerates_first 1200 Demo.beforeEnd300 h1 h2 h3)))).
Defined.

Lemma run_rates_monotone_witness :
  isPlaying Demo.fresh = false /\
  0 <= currentIndex Demo.fresh /\
  (currentIndex Demo.fresh = 0 \/
   JS.length (words Demo.fresh) <= currentIndex Demo.fresh) /\
  1 <= chunkSize Demo.fresh /\
  parseText Demo.fresh <> [] /\
  exists started final,
    togglePlay 1000 1001 Demo.fresh = Normal started /\
    fireTimers (S (List.length (parseText Demo.fresh))) Demo.clock
               started
    = Some (Normal final) /\
    isPlaying final = false /\ timer final = None /\
    reportHidden final = false /\
    StronglySorted Z.le (sessionRates final) /\
    Forall (fun r => r <= 1200) (sessionRates final).
Proof.
  assert (h1 : isPlaying Demo.fresh = false) by reflexivity.
  assert (h2 : 0 <= currentIndex Demo.fresh) by (cbn; lia).
  assert (h3 : currentIndex Demo.fresh = 0 \/
               JS.length (words Demo.fresh)
               <= currentIndex Demo.fresh) by (left; reflexivity).
  assert (h4 : 1 <= chunkSize Demo.fresh) by (cbn; lia).
  assert (h5 : parseText Demo.fresh <> [])
    by (rewrite parseText_fresh; discriminate).
  exact (conj h1 (conj h2 (conj h3 (conj h4 (conj h5
           (run_rates_monotone 1000 1001 Demo.clock Demo.fresh
              h1 h2 h3 h4 h5)))))).
Defined.


(** The divisor on a session with the single rate 301 and on one with the
    rates 301 and 302. *)
Example divisor_guard :
  Math_max_spread (sessionRates Demo.midSession) = Some 301 /\
  Math_min_spread (sessionRates Demo.midSession) = Some 301 /\
  divisor 301 301 = 1 /\
  Math_max_spread (sessionRates Demo.finished) = Some 302 /\
  divisor 302 301 = 1 /\ divisor 1200 300 = 900.
Proof. by_computation. Qed.

(** Hues of the samples at the rates 301, 301 and 302, and of a session
    with a single rate. *)
Example renderHeatmap_finished :
  map (fun s => Qred (hue s)) (renderHeatmap Demo.finished)
  = [200; 200; 0]%Q /\
  map (fun s => Qred (hue s)) (renderHeatmap Demo.midSession) = [200]%Q.
Proof. split; vm_compute; reflexivity. Qed.

End AppFacts.

(** ** More on the anchor engine *)

Module AnchorEngineMore.
Import AnchorEngine.

Section Engine.
Variable char : Type.
Variable char_eq_dec : forall a b : char, {a = b} + {a <> b}.
Variable toLowerCase : list char -> list char.

Local Abbreviation sameLetter := (sameLetter char_eq_dec toLowerCase).
Local Abbreviation findMatches := (findMatches char_eq_dec toLowerCase).
Local Abbreviation process := (process char_eq_dec toLowerCase).
Local Abbreviation matchesAt := (matchesAt char_eq_dec toLowerCase).

Lemma sameLetter_true (wi : char) (anchor : list char) :
  sameLetter wi anchor = true <-> toLowerCase [wi] = toLowerCase anchor.
Proof.
  unfold AnchorEngine.sameLetter.
  destruct (list_eq_dec char_eq_dec _ _); split; congruence.
Qed.

(** On a non-empty word the result and the new state are built from the
    pivot alone. *)
Lemma process_shape (this : t char) (word : list char) :
  word <> [] ->
  process this word =
  ({| pivotIndex := pivotIndex (fst (process this word));
      anchorChar := JS.index word (pivotIndex (fst (process this word))) |},
   {| lastAnchorChar :=
        JS.index word (pivotIndex (fst (process this word))) |}).
Proof. destruct word; [congruence|reflexivity]. Qed.

(** The pivot of a non-empty word is the position of one of its
    characters; after a match, of one that is the anchor up to case. *)
Lemma process_pivot_char (this : t char) (word : list char) :
  word <> [] ->
  exists c,
    0 <= pivotIndex (fst (process this word)) /\
    nth_error word (Z.to_nat (pivotIndex (fst (process this word))))
    = Some c /\
    (forall anchor i,
        lastAnchorChar this = JS.Str anchor -> anchor <> [] ->
        matchesAt anchor word i -> sameLetter c anchor = true).
Proof.
  intros Hw.
  assert (Hlen : 1 <= JS.length word).
  { destruct word; [congruence|]. rewrite JSFacts.length_cons.
    pose proof (JSFacts.length_nonneg word). lia. }
  assert (Hfb : forall p,
             p = Z.max 0 (JS.Math_ceil (inject_Z (JS.length word) / 2)%Q - 1)
             -> exists c, 0 <= p /\ nth_error word (Z.to_nat p) = Some c).
  { intros p ->. rewrite JSFacts.Math_ceil_half.
    pose proof (Z.div_mod (JS.length word + 1) 2 ltac:(lia)).
    pose proof (Z.mod_pos_bound (JS.length word + 1) 2 ltac:(lia)).
    destruct (nth_error word
                (Z.to_nat (Z.max 0 ((JS.length word + 1) / 2 - 1))))
      as [c|] eqn:E; [exists c; split; [lia|reflexivity]|].
    apply nth_error_None in E. unfold JS.length in *. lia. }
  assert (Hfalsy : JS.truthy (lastAnchorChar this) = false ->
                   exists c,
                     0 <= pivotIndex (fst (process this word)) /\
                     nth_error word
                       (Z.to_nat (pivotIndex (fst (process this word))))
                     = Some c).
  { intros Hf. apply Hfb.
    apply AnchorEngineFacts.process_fallback; [assumption|now left]. }
  destruct (lastAnchorChar this) as [| |[|a s]] eqn:Ha;
    try (destruct (Hfalsy eq_refl) as (c & H0 & Hc);
         exists c; repeat split; try assumption;
         intros anchor i [= <-]; congruence).
  destruct (findMatches (a :: s) 0 word []) as [|m0 ms] eqn:Hm.
  - assert (Hp : pivotIndex (fst (process this word)) =
                 Z.max 0 (JS.Math_ceil (inject_Z (JS.length word) / 2)%Q
                          - 1)).
    { apply AnchorEngineFacts.process_fallback; [assumption|right].
      now exists (a :: s). }
    destruct (Hfb _ Hp) as (c & H0 & Hc).
    exists c. repeat split; try assumption.
    intros anchor i [= <-] _ Hi.
    apply AnchorEngineFacts.findMatches_matchesAt in Hi.
    rewrite Hm in Hi. contradiction.
  - rewrite (AnchorEngineFacts.process_sticky _ char_eq_dec toLowerCase
               this word (a :: s) m0 ms Hw Ha ltac:(discriminate) Hm).
    set (r := fold_left _ ms m0).
    assert (Hr : In r (m0 :: ms)).
    { apply AnchorEngineFacts.reduce_closer_In. rewrite <- Hm.
      apply AnchorEngineFacts.findMatches_sorted. }
    rewrite <- Hm in Hr. apply AnchorEngineFacts.findMatches_In in Hr.
    destruct Hr as [H0 [wi [Hn Hs]]].
    rewrite Z.sub_0_r in Hn.
    exists wi. repeat split; try assumption.
    intros anchor i [= <-] _ _. exact Hs.
Qed.

(** The result of [process] depends on the remembered string only through
    its lower-case form. *)
Lemma process_anchor_up_to_case (this1 this2 : t char)
      (a1 a2 word : list char) :
  word <> [] ->
  lastAnchorChar this1 = JS.Str a1 -> lastAnchorChar this2 = JS.Str a2 ->
  a1 <> [] -> a2 <> [] ->
  toLowerCase a1 = toLowerCase a2 ->
  process this1 word = process this2 word.
Proof.
  intros Hw H1 H2 Hn1 Hn2 Hlow.
  assert (Hm : forall rest i acc,
             findMatches a1 i rest acc = findMatches a2 i rest acc).
  { induction rest as [|w rest IH]; intros i acc; simpl; [reflexivity|].
    unfold AnchorEngine.sameLetter. rewrite Hlow. apply IH. }
  destruct word as [|w0 word']; [congruence|].
  destruct a1 as [|x1 s1]; [congruence|].
  destruct a2 as [|x2 s2]; [congruence|].
  cbv beta iota zeta delta [AnchorEngine.process].
  rewrite H1, H2, Hm. reflexivity.
Qed.

Lemma index_nth (word : list char) (p : Z) (c : char) :
  0 <= p -> nth_error word (Z.to_nat p) = Some c ->
  JS.index word p = JS.Str [c].
Proof.
  intros Hp Hn. unfold JS.index. destruct (Z.ltb_spec p 0); [lia|].
  now rewrite Hn.
Qed.

(** X1. On a non-empty word the anchor returned and the anchor remembered
    are both the one character of the word at the returned pivot. *)
Theorem process_remembers_pivot_char :
  forall (this : t char) (word : list char),
    word <> [] ->
    exists c,
      nth_error word (Z.to_nat (pivotIndex (fst (process this word))))
      = Some c /\
      anchorChar (fst (process this word)) = JS.Str [c] /\
      lastAnchorChar (snd (process this word)) = JS.Str [c].
Proof.
  intros this word Hw.
  destruct (process_pivot_char this word Hw) as (c & H0 & Hc & _).
  exists c. split; [exact Hc|].
  rewrite (process_shape this word Hw). simpl.
  now rewrite (index_nth _ _ _ H0 Hc).
Qed.

(** X2. When the remembered anchor occurs in a non-empty word, the
    character remembered afterwards is the same letter up to case. *)
Theorem process_sticky_keeps_letter :
  forall (this : t char) (word : list char) (a : char) (s : list char)
         (i : Z),
    word <> [] ->
    lastAnchorChar this = JS.Str (a :: s) ->
    matchesAt (a :: s) word i ->
    exists c,
      lastAnchorChar (snd (process this word)) = JS.Str [c] /\
      toLowerCase [c] = toLowerCase (a :: s).
Proof.
  intros this word a s i Hw Ha Hi.
  destruct (process_pivot_char this word Hw) as (c & H0 & Hc & Hsame).
  exists c. split.
  - rewrite (process_shape this word Hw). simpl.
    now apply index_nth.
  - apply sameLetter_true. apply (Hsame (a :: s) i); auto. discriminate.
Qed.

(** X3. After such a match the engine treats every next non-empty word as
    it would have before: the pivot and the anchor it gives are the same;
    in particular showing the same word again keeps its pivot. *)
Theorem process_sticky_stable :
  forall (this : t char) (word : list char) (a : char) (s : list char)
         (i : Z),
    word <> [] ->
    lastAnchorChar this = JS.Str (a :: s) ->
    matchesAt (a :: s) word i ->
    (forall next, next <> [] ->
                  process (snd (process this word)) next = process this next)
    /\ process (snd (process this word)) word = process this word.
Proof.
  intros this word a s i Hw Ha Hi.
  destruct (process_pivot_char this word Hw) as (c & H0 & Hc & Hsame).
  assert (Hstate : lastAnchorChar (snd (process this word)) = JS.Str [c]).
  { rewrite (process_shape this word Hw). simpl. now apply index_nth. }
  assert (Hlow : toLowerCase [c] = toLowerCase (a :: s)).
  { apply sameLetter_true. apply (Hsame (a :: s) i); auto. discriminate. }
  assert (Hnext : forall next, next <> [] ->
              process (snd (process this word)) next = process this next).
  { intros next Hn.
    apply (process_anchor_up_to_case _ _ [c] (a :: s)); auto; discriminate. }
  split; [exact Hnext|now apply Hnext].
Qed.

End Engine.

Local Abbreviation process := (AnchorEngine.process ascii_dec App.toLowerCase).
Local Abbreviation matchesAt :=
  (AnchorEngine.matchesAt ascii_dec App.toLowerCase).

(** Without a match the same word may move: the fallback puts the pivot of
    [aa] at 0, the second call finds the [a] at 1 closer to the centre. *)
Example process_fallback_not_stable :
  pivotIndex (fst (process AnchorEngine.new (Demo.str "aa"))) = 0 /\
  pivotIndex
    (fst (process (snd (process AnchorEngine.new (Demo.str "aa")))
                  (Demo.str "aa"))) = 1.
Proof. split; reflexivity. Qed.

Lemma process_remembers_pivot_char_witness :
  Demo.str "bAnana" <> [] /\
  exists c,
    nth_error (Demo.str "bAnana")
      (Z.to_nat (pivotIndex (fst (process Demo.anchorA (Demo.str "bAnana")))))
    = Some c /\
    anchorChar (fst (process Demo.anchorA (Demo.str "bAnana"))) = JS.Str [c]
    /\
    lastAnchorChar (snd (process Demo.anchorA (Demo.str "bAnana")))
    = JS.Str [c].
Proof.
  assert (h1 : Demo.str "bAnana" <> []) by discriminate.
  exact (conj h1
           (process_remembers_pivot_char ascii ascii_dec App.toLowerCase
              Demo.anchorA (Demo.str "bAnana") h1)).
Defined.

Lemma process_sticky_keeps_letter_witness :
  Demo.str "bAnana" <> [] /\
  lastAnchorChar Demo.anchorA = JS.Str (Demo.str "A") /\
  matchesAt (Demo.str "A") (Demo.str "bAnana") 5 /\
  exists c,
    lastAnchorChar (snd (process Demo.anchorA (Demo.str "bAnana")))
    = JS.Str [c] /\
    App.toLowerCase [c] = App.toLowerCase (Demo.str "A").
Proof.
  assert (h1 : Demo.str "bAnana" <> []) by discriminate.
  assert (h2 : lastAnchorChar Demo.anchorA = JS.Str (Demo.str "A"))
    by reflexivity.
  assert (h3 : matchesAt (Demo.str "A") (Demo.str "bAnana") 5).
  { split; [lia|]. exists "a"%char. split; reflexivity. }
  exact (conj h1 (conj h2 (conj h3
           (process_sticky_keeps_letter ascii ascii_dec App.toLowerCase
              Demo.anchorA (Demo.str "bAnana") "A"%char [] 5 h1 h2 h3)))).
Defined.

Lemma process_sticky_stable_witness :
  Demo.str "bAnana" <> [] /\
  lastAnchorChar Demo.anchorA = JS.Str (Demo.str "A") /\
  matchesAt (Demo.str "A") (Demo.str "bAnana") 5 /\
  (forall next, next <> [] ->
                process (snd (process Demo.anchorA (Demo.str "bAnana"))) next
                = process Demo.anchorA next) /\
  process (snd (process Demo.anchorA (Demo.str "bAnana")))
          (Demo.str "bAnana")
  = process Demo.anchorA (Demo.str "bAnana").
Proof.
  assert (h1 : Demo.str "bAnana" <> []) by discriminate.
  assert (h2 : lastAnchorChar Demo.anchorA = JS.Str (Demo.str "A"))
    by reflexivity.
  assert (h3 : matchesAt (Demo.str "A") (Demo.str "bAnana") 5).
  { split; [lia|]. exists "a"%char. split; reflexivity. }
  exact (conj h1 (conj h2 (conj h3
           (process_sticky_stable ascii ascii_dec App.toLowerCase
              Demo.anchorA (Demo.str "bAnana") "A"%char [] 5 h1 h2 h3)))).
Defined.

End AnchorEngineMore.

(** ** More on the playback loop *)

Module AppMore.
Import App.
Import AppFacts.

(** *** Parsing the text *)

Lemma trimStart_blank (pre s : jsString) :
  blank pre -> trimStart (pre ++ s) = trimStart s.
Proof.
  induction 1 as [|c pre Hc Hpre IH]; simpl; [reflexivity|].
  now rewrite Hc.
Qed.

Lemma trimStart_word (c : ascii) (s : jsString) :
  isWhiteSpace c = false -> trimStart (c :: s) = c :: s.
Proof. intros Hc. simpl. now rewrite Hc. Qed.

Lemma blank_rev (s : jsString) : blank s -> blank (rev s).
Proof. apply Forall_rev. Qed.

(** [trim] takes the white space off both ends of a text whose first and
    last characters are not white space. *)
Lemma trim_padded (pre post s s' : jsString) (c c' : ascii) :
  blank pre -> blank post ->
  s = c :: s' -> isWhiteSpace c = false ->
  rev s = c' :: rev (removelast s) -> isWhiteSpace c' = false ->
  trim (pre ++ s ++ post) = s.
Proof.
  intros Hpre Hpost Hs Hc Hrev Hc'. unfold trim.
  rewrite trimStart_blank by assumption.
  rewrite Hs at 1. simpl app. rewrite trimStart_word by assumption.
  change (c :: s' ++ post) with ((c :: s') ++ post). rewrite <- Hs.
  rewrite rev_app_distr, trimStart_blank by now apply blank_rev.
  rewrite Hrev, trimStart_word by assumption.
  rewrite <- Hrev. apply rev_involutive.
Qed.

Lemma rev_last_cons (s : jsString) :
  s <> [] -> rev s = last s " "%char :: rev (removelast s).
Proof.
  intros Hs. rewrite (app_removelast_last " "%char Hs) at 1.
  now rewrite rev_app_distr.
Qed.

Lemma trim_blank (s : jsString) : blank s -> trim s = [].
Proof.
  intros Hs. unfold trim.
  assert (H : trimStart s = []).
  { rewrite <- (app_nil_r s), trimStart_blank by assumption. reflexivity. }
  now rewrite H.
Qed.

Lemma splitSpaces_clean (s : jsString) :
  forall inSep cur,
    noWhiteSpace cur -> Forall noWhiteSpace (splitSpaces inSep cur s).
Proof.
  induction s as [|c s IH]; intros inSep cur Hcur; simpl.
  - now repeat constructor.
  - destruct (isWhiteSpace c) eqn:Hc.
    + destruct inSep; [|constructor; [assumption|]]; apply IH; constructor.
    + apply IH. apply Forall_app. split; [assumption|].
      now repeat constructor.
Qed.

Lemma splitSpaces_word (w s : jsString) :
  noWhiteSpace w ->
  forall inSep cur,
    splitSpaces inSep cur (w ++ s) =
    splitSpaces (match w with [] => inSep | _ :: _ => false end)
                (cur ++ w) s.
Proof.
  induction 1 as [|c w Hc Hw IH]; intros inSep cur; simpl.
  - now rewrite app_nil_r.
  - rewrite Hc, IH, <- app_assoc. simpl. now destruct w.
Qed.

Lemma splitSpaces_join (ws : list jsString) :
  ws <> [] -> Forall (fun w => w <> [] /\ noWhiteSpace w) ws ->
  forall inSep, splitSpaces inSep [] (join spaceString ws) = ws.
Proof.
  induction ws as [|w ws IH]; intros Hne Hall inSep; [congruence|].
  inversion Hall as [|? ? [Hw Hclean] Hall']; subst.
  destruct ws as [|w2 ws].
  - simpl join. rewrite <- (app_nil_r w) at 1.
    rewrite splitSpaces_word by assumption. simpl.
    now destruct w.
  - change (join spaceString (w :: w2 :: ws))
      with (w ++ " "%char :: join spaceString (w2 :: ws)).
    rewrite splitSpaces_word by assumption.
    destruct w as [|c w]; [congruence|].
    simpl app. cbn [splitSpaces].
    change (isWhiteSpace " ") with true. cbv iota.
    f_equal. apply IH; [discriminate|assumption].
Qed.

Lemma last_app_nonempty {A : Type} (a b : list A) (d : A) :
  b <> [] -> last (a ++ b) d = last b d.
Proof.
  intros Hb. induction a as [|x a IH]; [reflexivity|].
  simpl app. change (last (x :: a ++ b) d)
    with (match a ++ b with [] => x | _ :: _ => last (a ++ b) d end).
  destruct (a ++ b) eqn:E; [|exact IH].
  apply app_eq_nil in E. destruct E. congruence.
Qed.

Lemma join_first (ws : list jsString) (c : ascii) (w : jsString) :
  exists s', join spaceString ((c :: w) :: ws) = c :: s'.
Proof. destruct ws; simpl; eexists; reflexivity. Qed.

Lemma join_last (ws : list jsString) :
  ws <> [] -> Forall (fun w => w <> [] /\ noWhiteSpace w) ws ->
  join spaceString ws <> [] /\
  isWhiteSpace (last (join spaceString ws) " "%char) = false.
Proof.
  induction ws as [|w ws IH]; intros Hne Hall; [congruence|].
  inversion Hall as [|? ? [Hw Hclean] Hall']; subst.
  destruct ws as [|w2 ws].
  - simpl join. split; [assumption|].
    destruct (exists_last Hw) as (w' & c & ->).
    rewrite last_last. apply Forall_app in Hclean.
    destruct Hclean as [_ Hc]. now inversion Hc.
  - change (join spaceString (w :: w2 :: ws))
      with (w ++ " "%char :: join spaceString (w2 :: ws)).
    destruct (IH ltac:(discriminate) Hall') as [Hj Hl].
    split; [destruct w; discriminate|].
    rewrite last_app_nonempty by discriminate.
    destruct (join spaceString (w2 :: ws)) eqn:E; [congruence|].
    exact Hl.
Qed.

Lemma filter_nonempty (ws : list jsString) :
  Forall (fun w => w <> [] /\ noWhiteSpace w) ws ->
  filter (fun w => 0 <? JS.length w) ws = ws.
Proof.
  induction 1 as [|w ws [Hw _] Hall IH]; simpl; [reflexivity|].
  destruct w; [congruence|]. rewrite JSFacts.length_cons.
  pose proof (JSFacts.length_nonneg w).
  destruct (Z.ltb_spec 0 (JS.length w + 1)); [|lia]. now rewrite IH.
Qed.

Lemma parseText_blank (this : t) :
  blank (textInput this) -> parseText this = [].
Proof. intros Hb. unfold parseText. now rewrite trim_blank. Qed.

Lemma parseText_clean (this : t) :
  Forall (fun w => w <> [] /\ noWhiteSpace w) (parseText this).
Proof.
  unfold parseText.
  destruct (trim (textInput this)) as [|c s]; [constructor|].
  apply Forall_forall. intros w Hw. apply filter_In in Hw.
  destruct Hw as [Hin Hlen]. split.
  - intros ->. discriminate Hlen.
  - pose proof (splitSpaces_clean (c :: s) false [] (Forall_nil _)) as H.
    rewrite Forall_forall in H. now apply H.
Qed.

(** X4. Every word [parseText] returns is non-empty and holds no white
    space, whatever the text. *)
Theorem parseText_words_clean :
  forall (this : t) (w : jsString),
    In w (parseText this) ->
    w <> [] /\ forall c, In c w -> isWhiteSpace c = false.
Proof.
  intros this w Hin.
  pose proof (parseText_clean this) as H. rewrite Forall_forall in H.
  destruct (H w Hin) as [Hne Hclean]. split; [exact Hne|].
  unfold noWhiteSpace in Hclean. now rewrite Forall_forall in Hclean.
Qed.

Lemma parseText_words_clean_witness :
  In (Demo.str "fox.") (parseText Demo.fresh) /\
  Demo.str "fox." <> [] /\
  forall c, In c (Demo.str "fox.") -> isWhiteSpace c = false.
Proof.
  assert (h1 : In (Demo.str "fox.") (parseText Demo.fresh))
    by (vm_compute; right; right; left; reflexivity).
  exact (conj h1 (parseText_words_clean Demo.fresh (Demo.str "fox.") h1)).
Defined.

(** X5. A text made of words without white space, joined by single spaces
    and padded with any white space at both ends, parses to these words;
    so the words of any text, joined again, parse to themselves. *)
Theorem parseText_join :
  forall (this : t) (ws : list jsString) (pre post : jsString),
    Forall (fun w => w <> [] /\ noWhiteSpace w) ws ->
    blank pre -> blank post ->
    textInput this = pre ++ join spaceString ws ++ post ->
    parseText this = ws /\
    parseText (set_textInput (join spaceString (parseText this)) this)
    = parseText this.
Proof.
  assert (Hparse : forall (this : t) ws pre post,
             Forall (fun w => w <> [] /\ noWhiteSpace w) ws ->
             blank pre -> blank post ->
             textInput this = pre ++ join spaceString ws ++ post ->
             parseText this = ws).
  { intros this ws pre post Hall Hpre Hpost Htext.
    destruct ws as [|w ws].
    - apply parseText_blank. rewrite Htext. simpl.
      apply Forall_app. now split.
    - inversion Hall as [|? ? [Hw Hclean] Hall']; subst.
      destruct w as [|c w]; [congruence|].
      destruct (join_first ws c w) as [s' Hs].
      destruct (join_last ((c :: w) :: ws) ltac:(discriminate) Hall)
        as [Hne Hlast].
      unfold parseText. rewrite Htext.
      rewrite (trim_padded pre post _ s' c
                 (last (join spaceString ((c :: w) :: ws)) " "%char)
                 Hpre Hpost Hs).
      + destruct (join spaceString ((c :: w) :: ws)) as [|x j] eqn:E;
          [congruence|].
        rewrite <- E.
        rewrite splitSpaces_join by (auto; discriminate).
        now apply filter_nonempty.
      + inversion Hclean; assumption.
      + now apply rev_last_cons.
      + exact Hlast. }
  intros this ws pre post Hall Hpre Hpost Htext.
  split; [now apply Hparse with (pre := pre) (post := post)|].
  apply Hparse with (pre := []) (post := []);
    [apply parseText_clean|constructor|constructor|].
  cbn [textInput set_textInput]. now rewrite app_nil_r.
Qed.

Lemma parseText_join_witness :
  Forall (fun w => w <> [] /\ noWhiteSpace w)
         [Demo.str "The"; Demo.str "quick"; Demo.str "fox."] /\
  blank (Demo.str "  ") /\ blank (Demo.str " ") /\
  textInput (set_textInput (Demo.str "  The quick fox. ") Demo.fresh)
  = Demo.str "  "
    ++ join spaceString [Demo.str "The"; Demo.str "quick"; Demo.str "fox."]
    ++ Demo.str " " /\
  parseText (set_textInput (Demo.str "  The quick fox. ") Demo.fresh)
  = [Demo.str "The"; Demo.str "quick"; Demo.str "fox."] /\
  parseText
    (set_textInput
       (join spaceString
          (parseText
             (set_textInput (Demo.str "  The quick fox. ") Demo.fresh)))
       (set_textInput (Demo.str "  The quick fox. ") Demo.fresh))
  = parseText (set_textInput (Demo.str "  The quick fox. ") Demo.fresh).
Proof.
  assert (h1 : Forall (fun w => w <> [] /\ noWhiteSpace w)
                 [Demo.str "The"; Demo.str "quick"; Demo.str "fox."]).
  { repeat constructor; discriminate. }
  assert (h2 : blank (Demo.str "  ")) by (repeat constructor).
  assert (h3 : blank (Demo.str " ")) by (repeat constructor).
  assert (h4 : textInput
                 (set_textInput (Demo.str "  The quick fox. ") Demo.fresh)
               = Demo.str "  "
                 ++ join spaceString
                      [Demo.str "The"; Demo.str "quick"; Demo.str "fox."]
                 ++ Demo.str " ") by reflexivity.
  exact (conj h1 (conj h2 (conj h3 (conj h4
           (parseText_join _ _ _ _ h1 h2 h3 h4))))).
Defined.

(** X6. On an idle object at the beginning or at the end of its words whose
    text is empty or all white space, [togglePlay()] returns without
    starting: nothing plays, no timeout is scheduled, the rate is
    untouched. *)
Theorem togglePlay_blank_text :
  forall (t0 t1 : Z) (this : t),
    isPlaying this = false ->
    currentIndex this = 0 \/ JS.length (words this) <= currentIndex this ->
    blank (textInput this) ->
    exists this',
      togglePlay t0 t1 this = Normal this' /\
      isPlaying this' = false /\ timer this' = timer this /\
      words this' = [] /\ (wpm this' = wpm this)%type /\
      sessionStartTime this' = sessionStartTime this.
Proof.
  intros t0 t1 this Hidle Hfresh Hblank.
  pose proof (parseText_blank this Hblank) as Hparse.
  unfold togglePlay. rewrite Hidle.
  destruct ((0 <? JS.length (words this))
            && (currentIndex this >=? JS.length (words this))) eqn:E1.
  - cbn -[parseText JS.length start]. rewrite Bool.orb_true_r.
    change (parseText (set_sessionData [] _)) with (parseText this).
    rewrite Hparse. cbn -[start].
    eexists. split; [reflexivity|]. cbn. now repeat split.
  - assert (E2 : (JS.length (words this) =? 0)
                 || (currentIndex this =? 0) = true).
    { apply Bool.orb_true_iff. destruct Hfresh as [H0|Hend].
      - right. now apply Z.eqb_eq.
      - left. apply Z.eqb_eq.
        apply Bool.andb_false_iff in E1. destruct E1 as [E|E].
        + apply Z.ltb_ge in E.
          pose proof (JSFacts.length_nonneg (words this)). lia.
        + rewrite Z.geb_leb in E. apply Z.leb_gt in E. lia. }
    rewrite E2. cbn -[parseText JS.length start]. rewrite Hparse.
    cbn -[start]. eexists. split; [reflexivity|]. cbn. now repeat split.
Qed.

Lemma togglePlay_blank_text_witness :
  isPlaying (set_textInput (Demo.str "  ") Demo.fresh) = false /\
  (currentIndex (set_textInput (Demo.str "  ") Demo.fresh) = 0 \/
   JS.length (words (set_textInput (Demo.str "  ") Demo.fresh))
   <= currentIndex (set_textInput (Demo.str "  ") Demo.fresh)) /\
  blank (textInput (set_textInput (Demo.str "  ") Demo.fresh)) /\
  exists this',
    togglePlay 1000 1001 (set_textInput (Demo.str "  ") Demo.fresh)
    = Normal this' /\
    isPlaying this' = false /\
    timer this' = timer (set_textInput (Demo.str "  ") Demo.fresh) /\
    words this' = [] /\
    (wpm this' = wpm (set_textInput (Demo.str "  ") Demo.fresh))%type /\
    sessionStartTime this'
    = sessionStartTime (set_textInput (Demo.str "  ") Demo.fresh).
Proof.
  assert (h1 : isPlaying (set_textInput (Demo.str "  ") Demo.fresh) = false)
    by reflexivity.
  assert (h2 : currentIndex (set_textInput (Demo.str "  ") Demo.fresh) = 0 \/
               JS.length (words (set_textInput (Demo.str "  ") Demo.fresh))
               <= currentIndex (set_textInput (Demo.str "  ") Demo.fresh))
    by (left; reflexivity).
  assert (h3 : blank (textInput (set_textInput (Demo.str "  ") Demo.fresh)))
    by (repeat constructor).
  exact (conj h1 (conj h2 (conj h3
           (togglePlay_blank_text 1000 1001 _ h1 h2 h3)))).
Defined.

(** *** No handler throws on a well-formed object *)

Lemma runLoop_normal (now : Z) (this : t) :
  0 <= currentIndex this -> 1 <= chunkSize this ->
  exists this',
    runLoop now this = Normal this' /\
    0 <= currentIndex this' /\ chunkSize this' = chunkSize this.
Proof.
  intros Hi Hk. destruct (isPlaying this) eqn:Hp.
  - destruct (Z.le_gt_cases (JS.length (words this)) (currentIndex this))
      as [Hend|Hmore].
    + rewrite runLoop_finish by assumption. eexists.
      split; [reflexivity|]. cbn. now split.
    + assert (Hrange : 0 <= currentIndex this < JS.length (words this))
        by lia.
      destruct (lastElement_Some _ (chunk_nonempty this Hrange Hk))
        as [lastWord Hlast].
      destruct (runLoop_tick now this lastWord Hp Hmore Hlast)
        as (e & d & Hrun & _).
      eexists. split; [exact Hrun|]. cbn. split; [lia|reflexivity].
  - rewrite runLoop_paused by assumption. eexists.
    split; [reflexivity|]. now split.
Qed.

Lemma start_normal (t0 t1 : Z) (this : t) :
  0 <= currentIndex this -> 1 <= chunkSize this ->
  exists this',
    start t0 t1 this = Normal this' /\
    0 <= currentIndex this' /\ chunkSize this' = chunkSize this.
Proof.
  intros Hi Hk. unfold start. cbv zeta.
  exact (runLoop_normal t1
           (set_sessionStartTime t0 (set_isPlaying true this)) Hi Hk).
Qed.

Lemma togglePlay_normal (t0 t1 : Z) (this : t) :
  0 <= currentIndex this -> 1 <= chunkSize this ->
  exists this',
    togglePlay t0 t1 this = Normal this' /\
    0 <= currentIndex this' /\ chunkSize this' = chunkSize this.
Proof.
  intros Hi Hk. unfold togglePlay.
  destruct (isPlaying this).
  { eexists. split; [reflexivity|]. now split. }
  destruct ((0 <? JS.length (words this))
            && (currentIndex this >=? JS.length (words this)));
    cbv zeta;
    match goal with
    | |- context [if ?c then _ else start _ _ ?s] =>
        destruct c;
        [match goal with
         | |- context [if ?c' then _ else _] => destruct c'
         end|]
    end;
    try (eexists; split; [reflexivity|]; cbn; split; [lia|reflexivity]);
    match goal with
    | |- exists _, start _ _ ?s = _ /\ _ =>
        apply (start_normal t0 t1 s); cbn; lia
    end.
Qed.

(** X7. On an object whose position is not negative and whose chunk size
    is at least 1, no event handler throws, and the object it leaves has
    both properties again, provided the chunk slider is never set below
    1. *)
Theorem dispatch_never_throws :
  forall (e : event) (this : t),
    0 <= currentIndex this -> 1 <= chunkSize this ->
    (forall value, e = ChunkSliderInput value -> 1 <= value) ->
    exists this',
      dispatch e this = Normal this' /\
      0 <= currentIndex this' /\ 1 <= chunkSize this'.
Proof.
  intros e this Hi Hk Hslider.
  assert (Hweak : forall c : completion t,
             (exists this', c = Normal this' /\ 0 <= currentIndex this' /\
                            chunkSize this' = chunkSize this) ->
             exists this', c = Normal this' /\ 0 <= currentIndex this' /\
                           1 <= chunkSize this').
  { intros c (this' & Hc & H0 & Hs). exists this'. rewrite Hs. auto. }
  destruct e as [t0 t1|value t0 t1|value|text|inText code t0 t1| |now];
    simpl dispatch.
  - apply Hweak. now apply togglePlay_normal.
  - apply Hweak. unfold wpmSliderInput. cbn [isPlaying set_wpm].
    destruct (isPlaying this).
    + apply (start_normal t0 t1 (stop (set_wpm (inject_Z value) this)));
        assumption.
    + eexists. split; [reflexivity|]. now split.
  - eexists. split; [reflexivity|]. cbn. split; [assumption|].
    now apply Hslider.
  - eexists. split; [reflexivity|]. unfold textInputInput.
    cbn [isPlaying set_textInput]. destruct (isPlaying this); cbn;
      split; (assumption || lia).
  - apply Hweak. unfold keydown. destruct inText.
    + eexists. split; [reflexivity|]. now split.
    + destruct code; try (eexists; split; [reflexivity|]; now split).
      now apply togglePlay_normal.
  - eexists. split; [reflexivity|]. now split.
  - apply Hweak. unfold timerFires. destruct (timer this).
    + apply (runLoop_normal now (set_timer None this)); assumption.
    + eexists. split; [reflexivity|]. now split.
Qed.

Lemma dispatch_never_throws_witness :
  0 <= currentIndex Demo.midSession /\
  1 <= chunkSize Demo.midSession /\
  (forall value, Timeout 1200 = ChunkSliderInput value -> 1 <= value) /\
  exists this',
    dispatch (Timeout 1200) Demo.midSession = Normal this' /\
    0 <= currentIndex this' /\ 1 <= chunkSize this'.
Proof.
  assert (h1 : 0 <= currentIndex Demo.midSession) by (cbn; lia).
  assert (h2 : 1 <= chunkSize Demo.midSession) by (cbn; lia).
  assert (h3 : forall value,
             Timeout 1200 = ChunkSliderInput value -> 1 <= value)
    by (intros value H; discriminate H).
  exact (conj h1 (conj h2 (conj h3
           (dispatch_never_throws (Timeout 1200) Demo.midSession
              h1 h2 h3)))).
Defined.

(** *** A floor under the delay *)

(** X8. A tick that starts at a positive rate and shows a non-empty chunk
    schedules the next one at least 50 ms later for each word of the
    chunk: the rate the delay is computed at never exceeds 1200. *)
Theorem runLoop_delay_at_least :
  forall (now : Z) (this : t),
    isPlaying this = true ->
    (0 < wpm this)%Q ->
    let chunk := slice (words this) (currentIndex this)
                       (currentIndex this + chunkSize this) in
    chunk <> [] ->
    exists (this' : t) (d : Q),
      runLoop now this = Normal this' /\
      timer this' = Some d /\
      (50 * inject_Z (JS.length chunk) <= d)%Q /\ (0 < wpm this' <= 1200)%Q.
Proof.
  intros now this Hp Hw chunk Hne.
  destruct (lastElement_Some chunk Hne) as [lastWord Hlast].
  destruct (slice_nonempty _ _ _ Hne) as [Hi Hn].
  destruct (runLoop_tick now this lastWord Hp Hi Hlast)
    as (e & d & Hrun & Hd).
  fold chunk in Hd, Hn.
  set (rate := JS.Math_min 1200
                 (wpm this + 0.5 * inject_Z (JS.length chunk))%Q) in *.
  assert (Hlen : (1 <= inject_Z (JS.length chunk))%Q).
  { change 1%Q with (inject_Z 1). rewrite <- Zle_Qle. exact Hn. }
  assert (Hrate : (0 < rate <= 1200)%Q).
  { split; [|apply JSFacts.Math_min_le_l].
    subst rate. unfold JS.Math_min. destruct (Qle_bool _ _); lra. }
  eexists. exists d. split; [exact Hrun|]. split; [reflexivity|].
  split; [|exact Hrate].
  rewrite Hd, specDelay_factor.
  pose proof (pauseWords_nonneg lastWord) as Hpause.
  apply Qle_shift_div_l; [apply Hrate|].
  destruct Hrate as [Hr0 Hr1].
  assert (Hprod : (inject_Z (JS.length chunk) * rate
                   <= inject_Z (JS.length chunk) * 1200)%Q).
  { rewrite !(Qmult_comm (inject_Z (JS.length chunk))).
    apply Qmult_le_compat_r; lra. }
  lra.
Qed.

Lemma runLoop_delay_at_least_witness :
  isPlaying Demo.beforeEnd300 = true /\
  (0 < wpm Demo.beforeEnd300)%Q /\
  slice (words Demo.beforeEnd300) (currentIndex Demo.beforeEnd300)
        (currentIndex Demo.beforeEnd300 + chunkSize Demo.beforeEnd300)
  <> [] /\
  exists (this' : t) (d : Q),
    runLoop 1200 Demo.beforeEnd300 = Normal this' /\
    timer this' = Some d /\
    (50 * inject_Z
            (JS.length
               (slice (words Demo.beforeEnd300)
                      (currentIndex Demo.beforeEnd300)
                      (currentIndex Demo.beforeEnd300
                       + chunkSize Demo.beforeEnd300))) <= d)%Q /\
    (0 < wpm this' <= 1200)%Q.
Proof.
  assert (h1 : isPlaying Demo.beforeEnd300 = true) by reflexivity.
  assert (h2 : (0 < wpm Demo.beforeEnd300)%Q) by reflexivity.
  assert (h3 : slice (words Demo.beforeEnd300)
                     (currentIndex Demo.beforeEnd300)
                     (currentIndex Demo.beforeEnd300
                      + chunkSize Demo.beforeEnd300) <> [])
    by (vm_compute; discriminate).
  exact (conj h1 (conj h2 (conj h3
           (runLoop_delay_at_least 1200 Demo.beforeEnd300 h1 h2 h3)))).
Defined.

(** *** The outcomes of [runLoop] *)

Lemma renderChunk_engine (chunk : list jsString) (this : t) :
  renderChunk chunk this =
  set_engine
    (snd (AnchorEngine.process ascii_dec toLowerCase (engine this)
            (join spaceString chunk)))
    this.
Proof.
  unfold renderChunk.
  now destruct (AnchorEngine.process _ _ _ _) as [r e].
Qed.

(** [runLoop] does one of four things: nothing when paused; the end of the
    session; a tick that throws on an empty chunk; a tick that schedules
    the next one. *)
Lemma runLoop_cases (now : Z) (this : t) :
  (isPlaying this = false /\ runLoop now this = Normal this) \/
  (isPlaying this = true /\
   JS.length (words this) <= currentIndex this /\
   runLoop now this = Normal (showReport (stop this))) \/
  (isPlaying this = true /\
   currentIndex this < JS.length (words this) /\
   lastElement (slice (words this) (currentIndex this)
                      (currentIndex this + chunkSize this)) = None /\
   runLoop now this = Throw (ticked now this)) \/
  (isPlaying this = true /\
   currentIndex this < JS.length (words this) /\
   exists lastWord d,
     lastElement (slice (words this) (currentIndex this)
                        (currentIndex this + chunkSize this))
     = Some lastWord /\
     runLoop now this = Normal (set_timer (Some d) (ticked now this))).
Proof.
  destruct (isPlaying this) eqn:Hp;
    [|left; split; [reflexivity|now apply runLoop_paused]].
  right.
  destruct (Z.le_gt_cases (JS.length (words this)) (currentIndex this))
    as [Hend|Hmore];
    [left; split; [reflexivity|]; split;
     [assumption|now apply runLoop_finish]|].
  right. unfold runLoop. rewrite Hp. simpl negb. cbv iota.
  destruct (currentIndex this >=? JS.length (words this)) eqn:E.
  { rewrite Z.geb_leb in E. apply Z.leb_le in E. lia. }
  cbv zeta. rewrite renderChunk_engine.
  destruct (lastElement _) as [lastWord|] eqn:Hlast.
  - right. split; [reflexivity|]. split; [assumption|].
    eexists lastWord, _. split; reflexivity.
  - left. split; [reflexivity|]. split; [assumption|].
    split; reflexivity.
Qed.

Lemma fireTimers_invariant (P : (nat -> Z) -> t -> Prop) :
  (forall clock this this',
      P clock this -> timer this <> None ->
      timerFires (clock O) this = Normal this' ->
      P (fun k => clock (S k)) this') ->
  forall fuel clock this final,
    P clock this ->
    fireTimers fuel clock this = Some (Normal final) ->
    (exists clock', P clock' final) /\ timer final = None.
Proof.
  intros Hstep.
  induction fuel as [|fuel IH]; intros clock this final HP Hrun;
    simpl in Hrun; destruct (timer this) eqn:Ht; try discriminate;
    try (injection Hrun as <-; split; [now exists clock|assumption]).
  destruct (timerFires (clock O) this) as [this'|this'] eqn:Hfire;
    [|discriminate].
  apply (IH _ _ _ (Hstep clock this this' HP ltac:(congruence) Hfire) Hrun).
Qed.

(** *** Every word is shown once, in order *)

(** [togglePlay()] on an idle object at its first word, or past its last
    one: [start()] runs on the parsed text from the first word, nothing
    recorded. *)
Lemma togglePlay_from_first (t0 t1 : Z) (this : t) :
  isPlaying this = false ->
  currentIndex this = 0 \/
  0 < JS.length (words this) <= currentIndex this ->
  parseText this <> [] ->
  exists this0,
    togglePlay t0 t1 this = start t0 t1 this0 /\
    words this0 = parseText this /\ sessionData this0 = [] /\
    currentIndex this0 = 0 /\ chunkSize this0 = chunkSize this.
Proof.
  intros Hidle Hfresh Hparse. unfold togglePlay. rewrite Hidle.
  assert (Hlen : (JS.length (parseText this) =? 0) = false).
  { apply Z.eqb_neq. destruct (parseText this); [congruence|].
    rewrite JSFacts.length_cons.
    pose proof (JSFacts.length_nonneg l). lia. }
  destruct ((0 <? JS.length (words this))
            && (currentIndex this >=? JS.length (words this))) eqn:E1.
  - cbn -[parseText JS.length start]. rewrite Bool.orb_true_r.
    change (parseText (set_sessionData [] _)) with (parseText this).
    cbn -[parseText JS.length start]. rewrite Hlen.
    eexists. split; [reflexivity|]. cbn -[parseText]. now repeat split.
  - assert (E0 : currentIndex this = 0).
    { destruct Hfresh as [H0|[Hpos Hend]]; [assumption|].
      apply Bool.andb_false_iff in E1. destruct E1 as [E|E].
      - apply Z.ltb_ge in E. lia.
      - rewrite Z.geb_leb in E. apply Z.leb_gt in E. lia. }
    rewrite E0. rewrite Bool.orb_true_r.
    cbn -[parseText JS.length start]. rewrite Hlen.
    eexists. split; [reflexivity|]. cbn -[parseText]. now repeat split.
Qed.

Lemma samplesFollow_snoc (k : Z) (ws : list jsString)
      (data : list Sample.t) (sample : Sample.t) :
  samplesFollow k ws data ->
  Sample.words sample =
  join spaceString
    (slice ws (k * Z.of_nat (List.length data))
           (k * Z.of_nat (List.length data) + k)) ->
  samplesFollow k ws (data ++ [sample]).
Proof.
  intros Hdata Hnew i x Hi.
  destruct (Nat.lt_ge_cases i (List.length data)) as [Hlt|Hge].
  - rewrite nth_error_app1 in Hi by assumption. now apply Hdata.
  - rewrite nth_error_app2 in Hi by assumption.
    destruct (i - List.length data)%nat as [|j] eqn:E; simpl in Hi.
    + injection Hi as <-. replace i with (List.length data) by lia.
      exact Hnew.
    + now destruct j.
Qed.

(** What a run from the first word keeps, for the chunk size [k] and the
    words [ws]. *)
Lemma runLoop_shows (k : Z) (ws : list jsString) (now : Z)
      (this this' : t) :
  chunkSize this = k -> words this = ws -> 1 <= k ->
  isPlaying this = true ->
  currentIndex this = k * Z.of_nat (List.length (sessionData this)) ->
  samplesFollow k ws (sessionData this) ->
  (sessionData this = [] \/
   k * (Z.of_nat (List.length (sessionData this)) - 1) < JS.length ws) ->
  runLoop now this = Normal this' ->
  chunkSize this' = k /\ words this' = ws /\
  currentIndex this' = k * Z.of_nat (List.length (sessionData this')) /\
  samplesFollow k ws (sessionData this') /\
  (sessionData this' = [] \/
   k * (Z.of_nat (List.length (sessionData this')) - 1) < JS.length ws) /\
  ((isPlaying this' = true /\ timer this' <> None) \/
   (timer this' = None /\ JS.length ws <= currentIndex this')).
Proof.
  intros Hk Hws Hk1 Hp Hci Hdata Hcount Hrun.
  destruct (runLoop_cases now this)
    as [[Hp' _]|[(_ & Hend & Hr)|[(_ & _ & _ & Hr)
                                 |(_ & Hmore & lastWord & d & _ & Hr)]]];
    try congruence; rewrite Hr in Hrun; injection Hrun as <-.
  - cbn. split; [assumption|]. split; [assumption|].
    split; [assumption|]. split; [assumption|]. split; [assumption|].
    right. split; [reflexivity|]. now rewrite <- Hws.
  - unfold ticked. cbn. rewrite length_app. simpl List.length.
    split; [assumption|]. split; [assumption|].
    split; [lia|]. split.
    + apply samplesFollow_snoc; [assumption|]. cbn.
      now rewrite Hws, Hk, Hci.
    + split.
      * right. rewrite <- Hws. lia.
      * left. split; [assumption|discriminate].
Qed.

(** X9. A run from the first word to the end, with no event between the
    timeouts and [k] words per chunk, records the words of the text in
    order and each once: the sample number [i] holds the words [k * i] to
    [k * i + k - 1], joined by spaces, and there are as many samples as
    chunks of [k] words cover the text. *)
Theorem run_shows_every_word :
  forall (t0 t1 : Z) (clock : nat -> Z) (this : t),
    isPlaying this = false ->
    currentIndex this = 0 \/
    0 < JS.length (words this) <= currentIndex this ->
    1 <= chunkSize this ->
    parseText this <> [] ->
    exists started final,
      togglePlay t0 t1 this = Normal started /\
      fireTimers (S (List.length (parseText this))) clock started
      = Some (Normal final) /\
      words final = parseText this /\
      samplesFollow (chunkSize this) (parseText this) (sessionData final) /\
      chunkSize this * (Z.of_nat (List.length (sessionData final)) - 1)
      < JS.length (parseText this)
      <= chunkSize this * Z.of_nat (List.length (sessionData final)).
Proof.
  intros t0 t1 clock this Hidle Hfresh Hk Hparse.
  destruct (togglePlay_from_first t0 t1 this Hidle Hfresh Hparse)
    as (this0 & Htoggle & Hwords & Hdata & Hi0 & Hk0).
  assert (Hok : ratesOk this0).
  { unfold ratesOk, sessionRates. rewrite Hdata. split; constructor. }
  destruct (start_completes t0 t1 clock this0
              (S (List.length (parseText this))))
    as (started & final & Hstart & Hrun & _);
    [lia|lia|exact Hok|rewrite Hwords; unfold JS.length; lia|].
  exists started, final. rewrite Htoggle.
  split; [exact Hstart|]. split; [exact Hrun|].
  set (k := chunkSize this). set (ws := parseText this).
  set (Q := fun (_ : nat -> Z) (st : t) =>
         chunkSize st = k /\ words st = ws /\
         currentIndex st = k * Z.of_nat (List.length (sessionData st)) /\
         samplesFollow k ws (sessionData st) /\
         (sessionData st = [] \/
          k * (Z.of_nat (List.length (sessionData st)) - 1)
          < JS.length ws) /\
         ((isPlaying st = true /\ timer st <> None) \/
          (timer st = None /\ JS.length ws <= currentIndex st))).
  assert (Hfirst : Q clock started).
  { unfold start in Hstart. cbv zeta in Hstart.
    apply (runLoop_shows k ws t1 _ started) in Hstart; try assumption;
      cbn; rewrite ?Hdata, ?Hi0; simpl; try reflexivity;
      try lia; try (now left).
    intros i sample Hi. now destruct i. }
  assert (Hstep : forall c st st',
             Q c st -> timer st <> None ->
             timerFires (c O) st = Normal st' ->
             Q (fun i => c (S i)) st').
  { intros c st st' (Hck & Hcw & Hci & Hcd & Hcn & Hcase) Ht Hfire.
    destruct Hcase as [[Hp _]|[Hnone _]]; [|congruence].
    unfold timerFires in Hfire.
    destruct (timer st); [|congruence].
    apply (runLoop_shows k ws (c O) (set_timer None st) st'); assumption. }
  destruct (fireTimers_invariant Q Hstep _ _ _ _ Hfirst Hrun)
    as [[clock' HQ] Hidle'].
  destruct HQ as (_ & Hw & Hci & Hd & Hn & Hcase).
  destruct Hcase as [[_ Ht]|[_ Hend]]; [congruence|].
  split; [exact Hw|]. split; [exact Hd|].
  destruct Hn as [Hnil|Hn].
  - rewrite Hnil in *. simpl in *.
    assert (1 <= JS.length ws).
    { subst ws. destruct (parseText this); [congruence|].
      rewrite JSFacts.length_cons.
      pose proof (JSFacts.length_nonneg l). lia. }
    lia.
  - lia.
Qed.

Lemma run_shows_every_word_witness :
  isPlaying Demo.fresh = false /\
  (currentIndex Demo.fresh = 0 \/
   0 < JS.length (words Demo.fresh) <= currentIndex Demo.fresh) /\
  1 <= chunkSize Demo.fresh /\
  parseText Demo.fresh <> [] /\
  exists started final,
    togglePlay 1000 1001 Demo.fresh = Normal started /\
    fireTimers (S (List.length (parseText Demo.fresh))) Demo.clock started
    = Some (Normal final) /\
    words final = parseText Demo.fresh /\
    samplesFollow (chunkSize Demo.fresh) (parseText Demo.fresh)
                  (sessionData final) /\
    chunkSize Demo.fresh * (Z.of_nat (List.length (sessionData final)) - 1)
    < JS.length (parseText Demo.fresh)
    <= chunkSize Demo.fresh * Z.of_nat (List.length (sessionData final)).
Proof.
  assert (h1 : isPlaying Demo.fresh = false) by reflexivity.
  assert (h2 : currentIndex Demo.fresh = 0 \/
               0 < JS.length (words Demo.fresh) <= currentIndex Demo.fresh)
    by (left; reflexivity).
  assert (h3 : 1 <= chunkSize Demo.fresh) by (cbn; lia).
  assert (h4 : parseText Demo.fresh <> [])
    by (rewrite parseText_fresh; discriminate).
  exact (conj h1 (conj h2 (conj h3 (conj h4
           (run_shows_every_word 1000 1001 Demo.clock Demo.fresh
              h1 h2 h3 h4))))).
Defined.

(** *** The time stamps of a run *)

Lemma runLoop_stamps (t0 now bound : Z) (this this' : t) :
  sessionStartTime this = t0 ->
  StronglySorted Z.le (map Sample.timestamp (sessionData this)) ->
  Forall (fun x => 0 <= x <= now - t0)
         (map Sample.timestamp (sessionData this)) ->
  t0 <= now <= bound ->
  runLoop now this = Normal this' ->
  sessionStartTime this' = t0 /\
  StronglySorted Z.le (map Sample.timestamp (sessionData this')) /\
  Forall (fun x => 0 <= x <= bound - t0)
         (map Sample.timestamp (sessionData this')).
Proof.
  intros Hstart Hsorted Hall Hnow Hrun.
  assert (Hall' : Forall (fun x => 0 <= x <= bound - t0)
                         (map Sample.timestamp (sessionData this))).
  { eapply Forall_impl; [|exact Hall]. simpl. intros; lia. }
  destruct (runLoop_cases now this)
    as [[_ Hr]|[(_ & _ & Hr)|[(_ & _ & _ & Hr)
                             |(_ & _ & lastWord & d & _ & Hr)]]];
    rewrite Hr in Hrun; try discriminate; injection Hrun as <-;
    try (cbn; now repeat split).
  unfold ticked. cbn. rewrite map_app. simpl map. rewrite Hstart.
  split; [reflexivity|]. split.
  - apply StronglySorted_snoc; [assumption|].
    eapply Forall_impl; [|exact Hall]. simpl. intros; lia.
  - apply Forall_app. split; [assumption|].
    constructor; [lia|constructor].
Qed.

(** X10. Along a run from a fresh start to the end, with no event between
    the timeouts and a clock that does not go back, the time stamps of the
    samples are not negative and never decrease, and the session start is
    the clock read by [start()]. *)
Theorem run_timestamps_monotone :
  forall (t0 t1 : Z) (clock : nat -> Z) (this : t),
    isPlaying this = false ->
    0 <= currentIndex this ->
    currentIndex this = 0 \/ JS.length (words this) <= currentIndex this ->
    1 <= chunkSize this ->
    parseText this <> [] ->
    t0 <= t1 <= clock O ->
    (forall i, clock i <= clock (S i)) ->
    exists started final,
      togglePlay t0 t1 this = Normal started /\
      fireTimers (S (List.length (parseText this))) clock started
      = Some (Normal final) /\
      sessionStartTime final = t0 /\
      StronglySorted Z.le (map Sample.timestamp (sessionData final)) /\
      Forall (fun x => 0 <= x) (map Sample.timestamp (sessionData final)).
Proof.
  intros t0 t1 clock this Hidle Hi Hfresh Hk Hparse Ht Hmono.
  destruct (togglePlay_fresh t0 t1 this Hidle Hi Hfresh Hparse)
    as (this0 & Htoggle & Hwords & Hdata & Hi0 & Hk0).
  assert (Hok : ratesOk this0).
  { unfold ratesOk, sessionRates. rewrite Hdata. split; constructor. }
  destruct (start_completes t0 t1 clock this0
              (S (List.length (parseText this))) Hi0)
    as (started & final & Hstart & Hrun & _);
    [lia|exact Hok|rewrite Hwords; unfold JS.length; lia|].
  exists started, final. rewrite Htoggle.
  split; [exact Hstart|]. split; [exact Hrun|].
  set (P := fun (c : nat -> Z) (st : t) =>
         sessionStartTime st = t0 /\
         StronglySorted Z.le (map Sample.timestamp (sessionData st)) /\
         Forall (fun x => 0 <= x <= c O - t0)
                (map Sample.timestamp (sessionData st)) /\
         t0 <= c O /\ (forall i, c i <= c (S i))).
  assert (Hfirst : P clock started).
  { unfold start in Hstart. cbv zeta in Hstart.
    destruct (runLoop_stamps t0 t1 (clock O)
                (set_sessionStartTime t0 (set_isPlaying true this0))
                started) as (H1 & H2 & H3);
      [reflexivity| | |lia|exact Hstart|].
    - cbn. rewrite Hdata. constructor.
    - cbn. rewrite Hdata. constructor.
    - repeat split; try assumption. lia. }
  assert (Hstep : forall c st st',
             P c st -> timer st <> None ->
             timerFires (c O) st = Normal st' ->
             P (fun i => c (S i)) st').
  { intros c st st' (Hs & Hsorted & Hall & Hc0 & Hc) Htimer Hfire.
    unfold timerFires in Hfire.
    assert (Hrun' : runLoop (c O) (set_timer None st) = Normal st').
    { destruct (timer st); [exact Hfire|congruence]. }
    destruct (runLoop_stamps t0 (c O) (c 1%nat) (set_timer None st) st')
      as (H1 & H2 & H3); try assumption.
    - pose proof (Hc O). lia.
    - repeat split; try assumption.
      + pose proof (Hc O). lia.
      + intros i. apply Hc. }
  destruct (fireTimers_invariant P Hstep _ _ _ _ Hfirst Hrun)
    as [[clock' (H1 & H2 & H3 & _)] _].
  split; [exact H1|]. split; [exact H2|].
  eapply Forall_impl; [|exact H3]. simpl. intros; lia.
Qed.

Lemma run_timestamps_monotone_witness :
  isPlaying Demo.fresh = false /\
  0 <= currentIndex Demo.fresh /\
  (currentIndex Demo.fresh = 0 \/
   JS.length (words Demo.fresh) <= currentIndex Demo.fresh) /\
  1 <= chunkSize Demo.fresh /\
  parseText Demo.fresh <> [] /\
  1000 <= 1001 <= Demo.clock O /\
  (forall i, Demo.clock i <= Demo.clock (S i)) /\
  exists started final,
    togglePlay 1000 1001 Demo.fresh = Normal started /\
    fireTimers (S (List.length (parseText Demo.fresh))) Demo.clock started
    = Some (Normal final) /\
    sessionStartTime final = 1000 /\
    StronglySorted Z.le (map Sample.timestamp (sessionData final)) /\
    Forall (fun x => 0 <= x) (map Sample.timestamp (sessionData final)).
Proof.
  assert (h1 : isPlaying Demo.fresh = false) by reflexivity.
  assert (h2 : 0 <= currentIndex Demo.fresh) by (cbn; lia).
  assert (h3 : currentIndex Demo.fresh = 0 \/
               JS.length (words Demo.fresh) <= currentIndex Demo.fresh)
    by (left; reflexivity).
  assert (h4 : 1 <= chunkSize Demo.fresh) by (cbn; lia).
  assert (h5 : parseText Demo.fresh <> [])
    by (rewrite parseText_fresh; discriminate).
  assert (h6 : 1000 <= 1001 <= Demo.clock O) by (unfold Demo.clock; lia).
  assert (h7 : forall i, Demo.clock i <= Demo.clock (S i))
    by (intros i; unfold Demo.clock; lia).
  exact (conj h1 (conj h2 (conj h3 (conj h4 (conj h5 (conj h6 (conj h7
           (run_timestamps_monotone 1000 1001 Demo.clock Demo.fresh
              h1 h2 h3 h4 h5 h6 h7)))))))).
Defined.

(** *** What every event keeps *)

(** Closes [invariant] on an object built by setters from one that has
    it. *)
Ltac frame_invariant :=
  simpl outcome; unfold invariant; cbn;
  split;
  [first [assumption | reflexivity | intros; congruence | intros; auto]
  |split; first [assumption | now left | constructor]].

Lemma process_anchorOk (e : AnchorEngine.t ascii) (word : jsString) :
  anchorOk e ->
  anchorOk (snd (AnchorEngine.process ascii_dec toLowerCase e word)).
Proof.
  intros He. destruct word as [|c word]; [exact He|].
  destruct (AnchorEngineMore.process_pivot_char _ ascii_dec toLowerCase e
              (c :: word) ltac:(discriminate)) as (x & H0 & Hx & _).
  right. exists x.
  rewrite (AnchorEngineMore.process_shape _ ascii_dec toLowerCase e
             (c :: word) ltac:(discriminate)).
  simpl. now apply AnchorEngineMore.index_nth.
Qed.

Lemma accelerated_rate_le (w a : Q) :
  JS.Math_round (JS.Math_min 1200 (w + a)) <= 1200.
Proof.
  rewrite <- Math_round_1200 at 2.
  apply JSFacts.Math_round_le, JSFacts.Math_min_le_l.
Qed.

Lemma ticked_invariant (now : Z) (this : t) (pending : option Q) :
  isPlaying this = true -> invariant this ->
  invariant (set_timer pending (ticked now this)).
Proof.
  intros Hp (_ & He & Hr). unfold invariant, ticked, sessionRates. cbn.
  split; [congruence|]. split; [now apply process_anchorOk|].
  rewrite map_app. apply Forall_app. split; [exact Hr|].
  constructor; [apply accelerated_rate_le|constructor].
Qed.

Lemma runLoop_invariant (now : Z) (this : t) :
  invariant this -> invariant (outcome (runLoop now this)).
Proof.
  intros Hinv.
  destruct (runLoop_cases now this)
    as [[_ Hr]|[(_ & _ & Hr)|[(Hp & _ & _ & Hr)
                             |(Hp & _ & lastWord & d & _ & Hr)]]];
    rewrite Hr; simpl outcome.
  - exact Hinv.
  - destruct Hinv as (_ & He & Hrates). now repeat split.
  - destruct Hinv as (Ht & He & Hrates).
    pose proof (ticked_invariant now this None Hp
                  (conj Ht (conj He Hrates))) as (_ & He' & Hr').
    unfold invariant. split; [|now split].
    unfold ticked. cbn. congruence.
  - now apply ticked_invariant.
Qed.

Lemma start_invariant (t0 t1 : Z) (this : t) :
  anchorOk (engine this) ->
  Forall (fun r => r <= 1200) (sessionRates this) ->
  invariant (outcome (start t0 t1 this)).
Proof.
  intros He Hr. unfold start. cbv zeta. apply runLoop_invariant.
  split; [discriminate|]. now split.
Qed.

Lemma togglePlay_invariant (t0 t1 : Z) (this : t) :
  invariant this -> invariant (outcome (togglePlay t0 t1 this)).
Proof.
  intros (Ht & He & Hr). unfold togglePlay.
  destruct (isPlaying this) eqn:Hp.
  { simpl. now repeat split. }
  specialize (Ht eq_refl).
  assert (Hreset : anchorOk (AnchorEngine.reset (engine this)))
    by (now left).
  destruct ((0 <? JS.length (words this))
            && (currentIndex this >=? JS.length (words this)));
    cbv zeta;
    match goal with
    | |- context [if ?c then _ else start _ _ ?s] =>
        destruct c;
        [match goal with
         | |- context [if ?c' then _ else _] => destruct c'
         end|]
    end;
    try (apply start_invariant; cbn; first [assumption|constructor]);
    simpl outcome; unfold invariant; cbn;
      (split; [intros _; assumption|]);
      (split; [assumption|]); first [assumption|constructor].
Qed.

Lemma dispatch_invariant (e : event) (this : t) :
  invariant this -> invariant (outcome (dispatch e this)).
Proof.
  intros Hinv.
  destruct e as [t0 t1|value t0 t1|value|text|inText code t0 t1| |now];
    simpl dispatch.
  - now apply togglePlay_invariant.
  - destruct Hinv as (Ht & He & Hr). unfold wpmSliderInput.
    cbn [isPlaying set_wpm]. destruct (isPlaying this) eqn:Hp.
    + apply start_invariant; assumption.
    + frame_invariant.
  - destruct Hinv as (Ht & He & Hr). frame_invariant.
  - destruct Hinv as (Ht & He & Hr). unfold textInputInput.
    cbn [isPlaying set_textInput].
    destruct (isPlaying this) eqn:Hp; frame_invariant.
  - unfold keydown. destruct inText; [exact Hinv|].
    destruct code; try exact Hinv;
      try (destruct Hinv as (Ht & He & Hr); frame_invariant).
    now apply togglePlay_invariant.
  - destruct Hinv as (Ht & He & Hr). frame_invariant.
  - unfold timerFires. destruct (timer this) eqn:Etimer; [|exact Hinv].
    apply runLoop_invariant. destruct Hinv as (Ht & He & Hr).
    frame_invariant.
Qed.

Lemma reachable_invariant (this : t) : reachable this -> invariant this.
Proof.
  induction 1 as [text hidden|e this Hreach IH].
  - split; [reflexivity|]. split; [now left|constructor].
  - now apply dispatch_invariant.
Qed.

(** X11. Whatever the events, no timeout is pending while the object is
    paused: a tick never comes after a stop. *)
Theorem reachable_paused_no_timeout :
  forall this : t,
    reachable this -> isPlaying this = false ->
    timer this = None /\
    forall now, timerFires now this = Normal this.
Proof.
  intros this Hreach Hidle.
  destruct (reachable_invariant this Hreach) as (Ht & _).
  split; [now apply Ht|].
  intros now. unfold timerFires. now rewrite (Ht Hidle).
Qed.

(** X12. Whatever the events, the engine of the page remembers nothing or
    exactly one character. *)
Theorem reachable_anchor_one_char :
  forall this : t,
    reachable this ->
    AnchorEngine.lastAnchorChar (engine this) = JS.Null \/
    exists c, AnchorEngine.lastAnchorChar (engine this) = JS.Str [c].
Proof.
  intros this Hreach.
  now destruct (reachable_invariant this Hreach) as (_ & He & _).
Qed.

(** X13. Whatever the events (slider moves, pauses, restarts), no sample
    ever records a rate above 1200. *)
Theorem reachable_rates_capped :
  forall (this : t) (sample : Sample.t),
    reachable this -> In sample (sessionData this) ->
    Sample.wpm sample <= 1200.
Proof.
  intros this sample Hreach Hin.
  destruct (reachable_invariant this Hreach) as (_ & _ & Hr).
  rewrite Forall_forall in Hr. apply Hr.
  unfold sessionRates. now apply in_map.
Qed.

(** A play, then a pause before the timeout has fired: the timeout that
    was pending while playing is gone. *)
Example played_then_paused :
  isPlaying Demo.played = true /\ timer Demo.played <> None /\
  sessionData Demo.played <> [] /\
  isPlaying Demo.paused = false /\ timer Demo.paused = None /\
  currentIndex Demo.paused = 1 /\
  sessionData Demo.paused = sessionData Demo.played.
Proof.
  split; [vm_compute; reflexivity|].
  split; [vm_compute; discriminate|].
  split; [vm_compute; discriminate|].
  by_computation.
Qed.

Lemma reachable_paused_no_timeout_witness :
  reachable Demo.paused /\ isPlaying Demo.paused = false /\
  timer Demo.paused = None /\
  forall now, timerFires now Demo.paused = Normal Demo.paused.
Proof.
  assert (h1 : reachable Demo.paused)
    by (apply reachable_event, reachable_event, reachable_new).
  assert (h2 : isPlaying Demo.paused = false)
    by (vm_compute; reflexivity).
  exact (conj h1 (conj h2
           (reachable_paused_no_timeout Demo.paused h1 h2))).
Defined.

Lemma reachable_anchor_one_char_witness :
  reachable (outcome (dispatch (PlayPauseClick 1000 1001) Demo.fresh)) /\
  (AnchorEngine.lastAnchorChar
     (engine (outcome (dispatch (PlayPauseClick 1000 1001) Demo.fresh)))
   = JS.Null \/
   exists c,
     AnchorEngine.lastAnchorChar
       (engine (outcome (dispatch (PlayPauseClick 1000 1001) Demo.fresh)))
     = JS.Str [c]).
Proof.
  assert (h1 : reachable
                 (outcome (dispatch (PlayPauseClick 1000 1001) Demo.fresh)))
    by (apply reachable_event, reachable_new).
  exact (conj h1 (reachable_anchor_one_char _ h1)).
Defined.

Lemma reachable_rates_capped_witness :
  reachable (outcome (dispatch (PlayPauseClick 1000 1001) Demo.fresh)) /\
  In {| Sample.words := Demo.str "The"; Sample.wpm := 301;
        Sample.timestamp := 1 |}
     (sessionData
        (outcome (dispatch (PlayPauseClick 1000 1001) Demo.fresh))) /\
  Sample.wpm {| Sample.words := Demo.str "The"; Sample.wpm := 301;
                Sample.timestamp := 1 |} <= 1200.
Proof.
  assert (h1 : reachable
                 (outcome (dispatch (PlayPauseClick 1000 1001) Demo.fresh)))
    by (apply reachable_event, reachable_new).
  assert (h2 : In {| Sample.words := Demo.str "The"; Sample.wpm := 301;
                     Sample.timestamp := 1 |}
                  (sessionData
                     (outcome
                        (dispatch (PlayPauseClick 1000 1001) Demo.fresh))))
    by (vm_compute; left; reflexivity).
  exact (conj h1 (conj h2 (reachable_rates_capped _ _ h1 h2))).
Defined.

(** *** Pause, resume and a new text *)

(** X14. A pause in the middle of the words followed by a resume goes on
    with the chunk at the current position: the text is not parsed again,
    the recorded samples stay, and the session start is taken again from
    the clock, so the new sample is stamped from the resume. *)
Theorem pause_resume_continues :
  forall (t0 t1 : Z) (this : t),
    isPlaying this = true ->
    0 < currentIndex this < JS.length (words this) ->
    slice (words this) (currentIndex this)
          (currentIndex this + chunkSize this) <> [] ->
    exists paused resumed,
      togglePlay t0 t1 this = Normal paused /\
      isPlaying paused = false /\ timer paused = None /\
      sessionData paused = sessionData this /\
      currentIndex paused = currentIndex this /\
      togglePlay t0 t1 paused = Normal resumed /\
      isPlaying resumed = true /\ timer resumed <> None /\
      words resumed = words this /\
      currentIndex resumed = currentIndex this + chunkSize this /\
      sessionStartTime resumed = t0 /\
      exists sample,
        sessionData resumed = sessionData this ++ [sample] /\
        Sample.words sample =
        join spaceString
          (slice (words this) (currentIndex this)
                 (currentIndex this + chunkSize this)) /\
        Sample.timestamp sample = t1 - t0.
Proof.
  intros t0 t1 this Hp Hi Hne.
  exists (stop this).
  destruct (lastElement_Some _ Hne) as [lastWord Hlast].
  destruct (runLoop_cases t1
              (set_sessionStartTime t0 (set_isPlaying true (stop this))))
    as [[Hf _]|[(_ & Hend & _)|[(_ & _ & Hnone & _)
                               |(_ & _ & lw & d & _ & Hr)]]].
  - discriminate Hf.
  - cbn in Hend. lia.
  - cbn in Hnone. congruence.
  - eexists. split; [unfold togglePlay; now rewrite Hp|].
    repeat (split; [reflexivity|]).
    split.
    + assert (E1 : (currentIndex this >=? JS.length (words this)) = false)
        by (rewrite Z.geb_leb; apply Z.leb_gt; lia).
      assert (E2 : (JS.length (words this) =? 0) = false)
        by (apply Z.eqb_neq; lia).
      assert (E3 : (currentIndex this =? 0) = false)
        by (apply Z.eqb_neq; lia).
      unfold togglePlay. cbn -[start JS.length parseText].
      rewrite E1, Bool.andb_false_r. cbn -[start JS.length parseText].
      rewrite E2, E3. simpl orb. cbv iota.
      unfold start. cbv zeta. exact Hr.
    + unfold ticked. cbn. split; [reflexivity|]. split; [discriminate|].
      repeat (split; [reflexivity|]).
      eexists. split; [reflexivity|]. split; reflexivity.
Qed.

Lemma pause_resume_continues_witness :
  isPlaying Demo.midSession = true /\
  0 < currentIndex Demo.midSession < JS.length (words Demo.midSession) /\
  slice (words Demo.midSession) (currentIndex Demo.midSession)
        (currentIndex Demo.midSession + chunkSize Demo.midSession) <> [] /\
  exists paused resumed,
    togglePlay 5000 5001 Demo.midSession = Normal paused /\
    isPlaying paused = false /\ timer paused = None /\
    sessionData paused = sessionData Demo.midSession /\
    currentIndex paused = currentIndex Demo.midSession /\
    togglePlay 5000 5001 paused = Normal resumed /\
    isPlaying resumed = true /\ timer resumed <> None /\
    words resumed = words Demo.midSession /\
    currentIndex resumed
    = currentIndex Demo.midSession + chunkSize Demo.midSession /\
    sessionStartTime resumed = 5000 /\
    exists sample,
      sessionData resumed = sessionData Demo.midSession ++ [sample] /\
      Sample.words sample =
      join spaceString
        (slice (words Demo.midSession) (currentIndex Demo.midSession)
               (currentIndex Demo.midSession + chunkSize Demo.midSession))
      /\
      Sample.timestamp sample = 5001 - 5000.
Proof.
  assert (h1 : isPlaying Demo.midSession = true) by reflexivity.
  assert (h2 : 0 < currentIndex Demo.midSession
               < JS.length (words Demo.midSession)) by (cbn; lia).
  assert (h3 : slice (words Demo.midSession) (currentIndex Demo.midSession)
                     (currentIndex Demo.midSession
                      + chunkSize Demo.midSession) <> [])
    by (vm_compute; discriminate).
  exact (conj h1 (conj h2 (conj h3
           (pause_resume_continues 5000 5001 Demo.midSession h1 h2 h3)))).
Defined.

(** X15. A change of the text while paused makes the next play a new
    session on the new text: it starts at the first word, with nothing
    recorded and nothing remembered by the engine. *)
Theorem edit_then_play_restarts :
  forall (t0 t1 : Z) (text : jsString) (this : t),
    isPlaying this = false ->
    parseText (set_textInput text this) <> [] ->
    exists this0,
      togglePlay t0 t1 (textInputInput text this) = start t0 t1 this0 /\
      words this0 = parseText (set_textInput text this) /\
      currentIndex this0 = 0 /\ sessionData this0 = [] /\
      engine this0 = AnchorEngine.new /\
      (wpm this0 = wpm this)%type /\ chunkSize this0 = chunkSize this.
Proof.
  intros t0 t1 text this Hidle Hparse.
  assert (Hlen : (JS.length (parseText (set_textInput text this)) =? 0)
                 = false).
  { apply Z.eqb_neq. destruct (parseText _); [congruence|].
    rewrite JSFacts.length_cons.
    pose proof (JSFacts.length_nonneg l). lia. }
  unfold textInputInput. cbn [isPlaying set_textInput]. rewrite Hidle.
  simpl negb. cbv iota. unfold togglePlay.
  cbn [isPlaying set_engine set_currentIndex set_textInput]. rewrite Hidle.
  cbn [words currentIndex set_engine set_currentIndex set_textInput].
  assert (E : (0 <? JS.length (words this))
              && (0 >=? JS.length (words this)) = false).
  { destruct (Z.ltb_spec 0 (JS.length (words this))); [|reflexivity].
    simpl. rewrite Z.geb_leb. apply Z.leb_gt. lia. }
  rewrite E. cbn -[parseText JS.length start].
  rewrite Bool.orb_true_r.
  change (parseText (set_engine _ _))
    with (parseText (set_textInput text this)).
  cbn -[parseText JS.length start]. rewrite Hlen.
  eexists. split; [reflexivity|]. cbn -[parseText]. now repeat split.
Qed.

Lemma edit_then_play_restarts_witness :
  isPlaying Demo.finished = false /\
  parseText (set_textInput (Demo.str "new text") Demo.finished) <> [] /\
  exists this0,
    togglePlay 1000 1001 (textInputInput (Demo.str "new text") Demo.finished)
    = start 1000 1001 this0 /\
    words this0 = parseText (set_textInput (Demo.str "new text")
                                           Demo.finished) /\
    currentIndex this0 = 0 /\ sessionData this0 = [] /\
    engine this0 = AnchorEngine.new /\
    (wpm this0 = wpm Demo.finished)%type /\
    chunkSize this0 = chunkSize Demo.finished.
Proof.
  assert (h1 : isPlaying Demo.finished = false) by reflexivity.
  assert (h2 : parseText (set_textInput (Demo.str "new text") Demo.finished)
               <> []) by (vm_compute; discriminate).
  exact (conj h1 (conj h2
           (edit_then_play_restarts 1000 1001 (Demo.str "new text")
              Demo.finished h1 h2))).
Defined.

(** *** The report *)

Lemma normalized_bounds (maxWpm minWpm : Z) (item : Sample.t) :
  minWpm <= Sample.wpm item <= maxWpm ->
  (0 <= normalized maxWpm minWpm item <= 1)%Q.
Proof.
  intros [Hlo Hhi]. unfold normalized, divisor.
  destruct (Z.eqb_spec (maxWpm - minWpm) 0) as [E|E].
  - replace (Sample.wpm item - minWpm) with 0 by lia.
    split; discriminate.
  - assert (Hd : (0 < inject_Z (maxWpm - minWpm))%Q).
    { change 0%Q with (inject_Z 0). rewrite <- Zlt_Qlt. lia. }
    assert (Ha : (0 <= inject_Z (Sample.wpm item - minWpm))%Q).
    { change 0%Q with (inject_Z 0). rewrite <- Zle_Qle. lia. }
    assert (Hb : (inject_Z (Sample.wpm item - minWpm)
                  <= inject_Z (maxWpm - minWpm))%Q).
    { rewrite <- Zle_Qle. lia. }
    split.
    + apply Qle_shift_div_l; [exact Hd|]. lra.
    + apply Qle_shift_div_r; [exact Hd|]. lra.
Qed.

(** X16. The heat map has one span for each sample, in order, with the
    sample's text and a trailing space, and every hue lies between 0 and
    200; an empty session gives an empty heat map. *)
Theorem renderHeatmap_hues :
  forall this : t,
    map textContent (renderHeatmap this)
    = map (fun item => Sample.words item ++ spaceString)
          (sessionData this) /\
    forall span, In span (renderHeatmap this) ->
                 (0 <= hue span <= 200)%Q.
Proof.
  intros this. unfold renderHeatmap.
  assert (Hrates : forall item, In item (sessionData this) ->
                     In (Sample.wpm item)
                        (map Sample.wpm (sessionData this))).
  { intros item Hin. now apply in_map. }
  destruct (map Sample.wpm (sessionData this)) as [|x xs] eqn:E.
  { apply map_eq_nil in E. rewrite E. simpl. split; [reflexivity|].
    intros span []. }
  destruct (fold_left_max xs x) as [_ Hmax].
  destruct (fold_left_min xs x) as [_ Hmin].
  simpl Math_max_spread. simpl Math_min_spread. cbv iota. split.
  - rewrite map_map. reflexivity.
  - intros span Hin. apply in_map_iff in Hin.
    destruct Hin as (item & <- & Hitem). simpl hue.
    pose proof (normalized_bounds (fold_left Z.max xs x)
                  (fold_left Z.min xs x) item
                  (conj (Hmin _ (Hrates _ Hitem))
                        (Hmax _ (Hrates _ Hitem)))).
    lra.
Qed.

Lemma fold_left_sum_bounds (lo hi : Z) (data : list Sample.t) :
  (forall r, In r (map Sample.wpm data) -> lo <= r <= hi) ->
  forall acc,
    acc + Z.of_nat (List.length data) * lo
    <= fold_left (fun acc curr => acc + Sample.wpm curr) data acc
    <= acc + Z.of_nat (List.length data) * hi.
Proof.
  induction data as [|d data IH]; intros Hall acc; simpl fold_left.
  - simpl. lia.
  - assert (Hd : lo <= Sample.wpm d <= hi) by (apply Hall; now left).
    specialize (IH (fun r Hr => Hall r (or_intror Hr))
                   (acc + Sample.wpm d)).
    simpl List.length. lia.
Qed.

Lemma Math_round_between (x : Q) (lo hi : Z) :
  (inject_Z lo <= x <= inject_Z hi)%Q -> lo <= JS.Math_round x <= hi.
Proof.
  intros [Hlo Hhi]. unfold JS.Math_round. split.
  - rewrite <- (Qfloor_Z lo). apply Qfloor_resp_le. lra.
  - assert (H : (inject_Z (Qfloor (x + (1 # 2))) < inject_Z (hi + 1))%Q).
    { eapply Qle_lt_trans; [apply Qfloor_le|].
      rewrite inject_Z_plus. change (inject_Z 1) with 1%Q. lra. }
    rewrite <- Zlt_Qlt in H. lia.
Qed.

(** X17. On a non-empty session [renderStats] shows as peak the greatest
    recorded rate and as average a value between the least and the
    greatest recorded rate. *)
Theorem renderStats_bounds :
  forall this : t,
    sessionData this <> [] ->
    exists stats,
      renderStats this = Some stats /\
      In (peakWpm stats) (sessionRates this) /\
      (forall r, In r (sessionRates this) -> r <= peakWpm stats) /\
      (forall lo hi,
          (forall r, In r (sessionRates this) -> lo <= r <= hi) ->
          lo <= avgWpm stats <= hi) /\
      avgWpm stats <= peakWpm stats.
Proof.
  intros this Hne. unfold renderStats, sessionRates.
  destruct (sessionData this) as [|d data] eqn:E; [congruence|].
  assert (Hlen : 1 <= Z.of_nat (List.length (d :: data)))
    by (simpl List.length; lia).
  unfold JS.length at 1.
  destruct (Z.eqb_spec (Z.of_nat (List.length (d :: data))) 0); [lia|].
  cbv zeta. simpl map. simpl Math_max_spread. cbv iota.
  destruct (fold_left_max (map Sample.wpm data) (Sample.wpm d))
    as [Hin Hmax].
  assert (Havg : forall lo hi,
             (forall r, In r (Sample.wpm d :: map Sample.wpm data) ->
                        lo <= r <= hi) ->
             lo <= JS.Math_round
                     (inject_Z
                        (fold_left (fun acc curr => acc + Sample.wpm curr)
                                   (d :: data) 0)
                      / inject_Z (JS.length (d :: data))) <= hi).
  { intros lo hi Hall.
    pose proof (fold_left_sum_bounds lo hi (d :: data) Hall 0) as Hsum.
    set (total := fold_left _ (d :: data) 0) in *.
    unfold JS.length.
    set (count := Z.of_nat (List.length (d :: data))) in *.
    assert (Hn : (0 < inject_Z count)%Q).
    { change 0%Q with (inject_Z 0). rewrite <- Zlt_Qlt. lia. }
    apply Math_round_between. split.
    - apply Qle_shift_div_l; [exact Hn|].
      rewrite <- inject_Z_mult, <- Zle_Qle. lia.
    - apply Qle_shift_div_r; [exact Hn|].
      rewrite <- inject_Z_mult, <- Zle_Qle. lia. }
  eexists. split; [reflexivity|]. cbn [avgWpm peakWpm].
  split; [exact Hin|]. split; [exact Hmax|]. split; [exact Havg|].
  apply (Havg (fold_left Z.min (map Sample.wpm data) (Sample.wpm d))).
  destruct (fold_left_min (map Sample.wpm data) (Sample.wpm d))
    as [_ Hmin].
  intros r Hr. split; [now apply Hmin|now apply Hmax].
Qed.

Lemma renderStats_bounds_witness :
  sessionData Demo.finished <> [] /\
  exists stats,
    renderStats Demo.finished = Some stats /\
    In (peakWpm stats) (sessionRates Demo.finished) /\
    (forall r, In r (sessionRates Demo.finished) -> r <= peakWpm stats) /\
    (forall lo hi,
        (forall r, In r (sessionRates Demo.finished) -> lo <= r <= hi) ->
        lo <= avgWpm stats <= hi) /\
    avgWpm stats <= peakWpm stats.
Proof.
  assert (h1 : sessionData Demo.finished <> []) by discriminate.
  exact (conj h1 (renderStats_bounds Demo.finished h1)).
Defined.

Example renderStats_finished :
  renderStats Demo.finished = Some {| avgWpm := 301; peakWpm := 302 |} /\
  renderStats Demo.fresh = None.
Proof. by_computation. Qed.

(** *** The three cells of the display *)







(** The seven characters of [the cat] pivot on the space in the middle,
    which stays a plain space in its cell. *)
Example renderChunkDisplay_the_cat :
  renderChunkDisplay [Demo.str "the"; Demo.str "cat"] Demo.fresh
  = {| leftText := Demo.str "the"; pivotText := JS.Str (Demo.str " ");
       rightText := Demo.str "cat" |}.
Proof. vm_compute. reflexivity. Qed.

(** *** The slider while playing *)

(** X19. Moving the rate slider while a non-empty chunk is still to come
    drops the pending timeout and shows that chunk at once: the position
    moves on by the chunk size, one sample is added to those recorded, the
    rate is the slider's value raised by 0.5 per word of the chunk (1200 at
    most), the new delay is computed at that rate, and the session start
    is taken again from the clock. *)
Theorem wpmSliderInput_shows_next_chunk :
  forall (value t0 t1 : Z) (this : t),
    isPlaying this = true ->
    let chunk := slice (words this) (currentIndex this)
                       (currentIndex this + chunkSize this) in
    let rate := JS.Math_min 1200
                  (inject_Z value + 0.5 * inject_Z (JS.length chunk))%Q in
    chunk <> [] ->
    exists (this' : t) (sample : Sample.t) (lastWord : jsString) (d : Q),
      wpmSliderInput value t0 t1 this = Normal this' /\
      isPlaying this' = true /\
      currentIndex this' = currentIndex this + chunkSize this /\
      (wpm this' = rate)%type /\
      sessionData this' = sessionData this ++ [sample] /\
      Sample.words sample = join spaceString chunk /\
      Sample.wpm sample = JS.Math_round rate /\
      Sample.timestamp sample = t1 - t0 /\
      sessionStartTime this' = t0 /\
      lastElement chunk = Some lastWord /\
      timer this' = Some d /\
      (d == specDelay rate (JS.length chunk) lastWord)%Q.
Proof.
  intros value t0 t1 this Hp chunk rate Hne.
  destruct (lastElement_Some chunk Hne) as [lastWord Hlast].
  destruct (slice_nonempty _ _ _ Hne) as [Hi _].
  destruct (runLoop_tick t1
              (set_sessionStartTime t0
                 (set_isPlaying true (stop (set_wpm (inject_Z value) this))))
              lastWord eq_refl Hi Hlast)
    as (e & d & Hrun & Hd).
  eexists _, _, lastWord, d. split.
  - unfold wpmSliderInput. cbn [isPlaying set_wpm]. rewrite Hp.
    unfold start. cbv zeta. exact Hrun.
  - cbn. repeat (split; [reflexivity|]).
    split; [exact Hlast|]. split; [reflexivity|exact Hd].
Qed.

Lemma wpmSliderInput_shows_next_chunk_witness :
  isPlaying Demo.midSession = true /\
  slice (words Demo.midSession) (currentIndex Demo.midSession)
        (currentIndex Demo.midSession + chunkSize Demo.midSession) <> [] /\
  (let chunk := slice (words Demo.midSession)
                      (currentIndex Demo.midSession)
                      (currentIndex Demo.midSession
                       + chunkSize Demo.midSession) in
   let rate := JS.Math_min 1200
                 (inject_Z 400 + 0.5 * inject_Z (JS.length chunk))%Q in
   exists (this' : t) (sample : Sample.t) (lastWord : jsString) (d : Q),
     wpmSliderInput 400 5000 5001 Demo.midSession = Normal this' /\
     isPlaying this' = true /\
     currentIndex this'
     = currentIndex Demo.midSession + chunkSize Demo.midSession /\
     (wpm this' = rate)%type /\
     sessionData this' = sessionData Demo.midSession ++ [sample] /\
     Sample.words sample = join spaceString chunk /\
     Sample.wpm sample = JS.Math_round rate /\
     Sample.timestamp sample = 5001 - 5000 /\
     sessionStartTime this' = 5000 /\
     lastElement chunk = Some lastWord /\
     timer this' = Some d /\
     (d == specDelay rate (JS.length chunk) lastWord)%Q).
Proof.
  assert (h1 : isPlaying Demo.midSession = true) by reflexivity.
  assert (h2 : slice (words Demo.midSession) (currentIndex Demo.midSession)
                     (currentIndex Demo.midSession
                      + chunkSize Demo.midSession) <> [])
    by (vm_compute; discriminate).
  exact (conj h1 (conj h2
           (wpmSliderInput_shows_next_chunk 400 5000 5001 Demo.midSession
              h1 h2))).
Defined.

End AppMore.
